(** * blog-portfolio: content model and collection queries

    A shallow embedding of the content layer of the portfolio site:
    - [contentlayer.config.ts]: the three document types, their field
      schemas and their computed fields ([slug], [url]);
    - [app/writing/page.tsx], [app/polyglot/page.tsx],
      [app/projects/page.tsx], [app/page.tsx]: the sorts, the language
      filter, the tag index, the language counts and the "recent" teasers;
    - [app/writing/[slug]/page.tsx], [app/polyglot/[slug]/page.tsx]: the
      lookup of a record by slug, and how the page ends;
    - [components/ProjectCard.tsx]: the related-post link.

    JavaScript strings are [string]s, arrays are [list]s, plain objects
    used as dictionaries are [gmap string _], [undefined] is [None].
    A module-level array that [Array.prototype.sort] reorders in place is
    threaded explicitly: an operation maps the array it receives to the
    array as it is afterwards, paired with the value it returns. *)

From Stdlib Require Import ZArith Ascii String.
From stdpp Require Import base option list gmap strings sorting.

(** ** JavaScript strings *)

Module JsString.

(** [s.slice(n)] for [0 <= n]: the string without its first [n] units. *)
Fixpoint slice_from (n : nat) (s : string) : string :=
  match n, s with
  | O, _ => s
  | S _, EmptyString => EmptyString
  | S n', String _ s' => slice_from n' s'
  end.

(** [s.startsWith(pat)]. *)
Fixpoint startsWith (pat s : string) : bool :=
  match pat, s with
  | EmptyString, _ => true
  | String _ _, EmptyString => false
  | String a pat', String b s' =>
      if Ascii.eqb a b then startsWith pat' s' else false
  end.

(** [s.includes(pat)]: [pat] occurs somewhere in [s]. *)
Fixpoint includes (pat s : string) : bool :=
  if startsWith pat s then true
  else match s with
       | EmptyString => false
       | String _ s' => includes pat s'
       end.

(** [s.replace(pat, rep)] with a string pattern: only the first
    (leftmost) occurrence of [pat] is replaced; a string without an
    occurrence is returned as it is.  [rep] is taken literally, which is
    what JavaScript does for a replacement without [$]. *)
Fixpoint replace (pat rep s : string) : string :=
  if startsWith pat s then rep +:+ slice_from (String.length pat) s
  else match s with
       | EmptyString => EmptyString
       | String c s' => String c (replace pat rep s')
       end.

End JsString.

(** ** contentlayer.config.ts *)

(** The [type] of a field of a document type. *)
Inductive FieldType : Type :=
  | TString
  | TDate
  | TNumber
  | TEnum (options : list string)
  | TListOf (elem : FieldType).

Record FieldDef : Type := mkField {
  field_type : FieldType;
  required : bool
}.

(** The argument of [defineDocumentType].  A computed field's [resolve]
    receives the document; the three resolvers of this configuration read
    [doc._raw.flattenedPath] only, so a resolver is a function of that
    path. *)
Record DocumentType : Type := mkDocumentType {
  name : string;
  filePathPattern : string;
  fields : list (string * FieldDef);
  computedFields : list (string * (string → string))
}.

(** The three [slug] resolvers are one expression up to the directory
    literal, [doc._raw.flattenedPath.replace(ns, "")]. *)
Definition stripNamespace (ns flattenedPath : string) : string :=
  JsString.replace ns "" flattenedPath.

Definition WritingPost : DocumentType := {|
  name := "WritingPost";
  filePathPattern := "writing/**/*.mdx";
  fields :=
    [ ("title", mkField TString true);
      ("date", mkField TDate true);
      ("description", mkField TString true);
      ("tags", mkField (TListOf TString) true);
      ("image", mkField TString false) ];
  computedFields :=
    [ ("slug", λ flattenedPath, stripNamespace "writing/" flattenedPath);
      ("url", λ flattenedPath,
         "/writing/" +:+ stripNamespace "writing/" flattenedPath) ]
|}.

Definition PolyglotPost : DocumentType := {|
  name := "PolyglotPost";
  filePathPattern := "polyglot/**/*.mdx";
  fields :=
    [ ("title", mkField TString true);
      ("date", mkField TDate true);
      ("description", mkField TString true);
      ("language", mkField (TEnum ["jp"; "kr"; "en"; "es"]) true) ];
  computedFields :=
    [ ("slug", λ flattenedPath, stripNamespace "polyglot/" flattenedPath);
      ("url", λ flattenedPath,
         "/polyglot/" +:+ stripNamespace "polyglot/" flattenedPath) ]
|}.

Definition Project : DocumentType := {|
  name := "Project";
  filePathPattern := "projects/**/*.mdx";
  fields :=
    [ ("title", mkField TString true);
      ("description", mkField TString true);
      ("technologies", mkField (TListOf TString) true);
      ("github", mkField TString false);
      ("liveUrl", mkField TString false);
      ("image", mkField TString false);
      ("order", mkField TNumber false);
      ("status", mkField (TEnum ["completed"; "wip"]) false);
      ("relatedPost", mkField TString false) ];
  computedFields :=
    [ ("slug", λ flattenedPath, stripNamespace "projects/" flattenedPath) ]
|}.

Definition documentTypes : list DocumentType :=
  [WritingPost; PolyglotPost; Project].

(** The directory literals of the three [filePathPattern]s. *)
Definition namespaces : list string := ["writing/"; "polyglot/"; "projects/"].

(** The computed part of the record made for the entry at [flattenedPath]:
    every resolver applied to the path, as an object keyed by field name. *)
Definition resolveComputed (dt : DocumentType) (flattenedPath : string)
  : gmap string string :=
  list_to_map (prod_map id (λ resolve, resolve flattenedPath) <$> computedFields dt).

(** The keys a record of the type gets from its configuration: the
    authored fields and the computed ones. *)
Definition fieldNames (dt : DocumentType) : list string :=
  (fst <$> fields dt) ++ (fst <$> computedFields dt).

(** ** Arrays *)

(** An array method applied to a receiver: the value it returns and the
    receiver as it is after the call.  The module-level collections
    ([allWritingPosts], [allPolyglotPosts], [allProjects]) are such
    receivers, shared by every page that imports them. *)
Definition Method (A R : Type) : Type := list A → R * list A.

Section Array.
Context {A : Type}.

(** *** Array.prototype.sort *)

(** [comparefn] returns a JavaScript number; [None] stands for [NaN]. *)
Variable comparefn : A → A → option Z.

(** The comparison the sort performs on two elements: the number
    [comparefn] returns, a [NaN] counting as [+0]. *)
Definition compareElements (x y : A) : Z := default 0%Z (comparefn x y).

(** [x] does not have to follow [y]; the two are tied when neither has to
    follow the other. *)
Definition comesBefore (x y : A) : Prop := (compareElements x y ≤ 0)%Z.
Definition tied (x y : A) : Prop := comesBefore x y ∧ comesBefore y x.

Global Instance comesBefore_dec x y : Decision (comesBefore x y).
Proof. unfold comesBefore. apply _. Defined.

Global Instance tied_dec x y : Decision (tied x y).
Proof. unfold tied. apply _. Defined.

(** The sort is stable.  For a consistent [comparefn] the language fixes
    the result (the stable arrangement in comparison order), whatever
    algorithm the engine runs; a stable insertion sort computes it.
    A [comparefn] that is not consistent (the date comparator, when a date
    of the collection is invalid and some comparisons are [NaN]) leaves
    the order to the engine: of the sorted array only what every engine
    gives is stated then (the same elements, in the receiver itself), and
    every statement on order or on ties is made for a consistent
    [comparefn]: the date comparator on valid dates, [byOrder] always.
    [insertSorted x l] puts [x], which came before the elements of [l]
    in the array, in front of the first one it does not have to follow. *)
Fixpoint insertSorted (x : A) (l : list A) : list A :=
  match l with
  | [] => [x]
  | y :: l' =>
      if (compareElements x y <=? 0)%Z then x :: y :: l'
      else y :: insertSorted x l'
  end.

Definition sortElements (l : list A) : list A := foldr insertSorted [] l.

(** [arr.sort(comparefn)] sorts the receiver in place and returns the
    receiver itself: the returned array and the receiver afterwards are
    one object. *)
Definition Array_sort : Method A (list A) :=
  λ arr, let sorted := sortElements arr in (sorted, sorted).

(** *** Methods that build a new array or value *)

Definition Array_filter (P : A → Prop) `{∀ x, Decision (P x)}
  : Method A (list A) :=
  λ arr, (filter P arr, arr).

(** [arr.slice(0, n)]. *)
Definition Array_slice0 (n : nat) : Method A (list A) :=
  λ arr, (take n arr, arr).

Definition Array_flatMap {B} (f : A → list B) : Method A (list B) :=
  λ arr, (concat (f <$> arr), arr).

(** [arr.reduce(callback, initialValue)]: only the accumulator is
    threaded (and mutated by the callback, when it is an object). *)
Definition Array_reduce {B} (callback : B → A → B) (initialValue : B)
  : Method A B :=
  λ arr, (foldl callback initialValue arr, arr).

(** [arr.find(pred)]: the first element satisfying [pred], or
    [undefined]. *)
Definition Array_find (P : A → Prop) `{∀ x, Decision (P x)}
  : Method A (option A) :=
  λ arr, (snd <$> list_find P arr, arr).

End Array.

(** [Array.from(new Set(values))]: a [Set] keeps one copy of each value, in
    the order of first insertion. *)
Definition Array_from_Set `{EqDecision B} (values : list B) : list B :=
  foldl (λ seen v, if decide (v ∈ seen) then seen else seen ++ [v]) [] values.

(** ** Generated documents (contentlayer/generated) *)

Inductive Language : Type := jp | kr | en | es.

Definition code (l : Language) : string :=
  match l with jp => "jp" | kr => "kr" | en => "en" | es => "es" end.

Global Instance Language_eq_dec : EqDecision Language.
Proof. solve_decision. Defined.

Inductive Status : Type := completed | wip.

Record WritingPostDoc : Type := {
  wp_title : string;
  wp_date : string;
  wp_description : string;
  wp_tags : list string;
  wp_image : option string;
  wp_slug : string;
  wp_url : string
}.

Record PolyglotPostDoc : Type := {
  pp_title : string;
  pp_date : string;
  pp_description : string;
  pp_language : Language;
  pp_slug : string;
  pp_url : string
}.

(** [order] is a JavaScript number; the development covers the integral
    ones. *)
Record ProjectDoc : Type := {
  pj_title : string;
  pj_description : string;
  pj_technologies : list string;
  pj_github : option string;
  pj_liveUrl : option string;
  pj_image : option string;
  pj_order : option Z;
  pj_status : option Status;
  pj_relatedPost : option string;
  pj_slug : string
}.

(** ** Comparators *)

(** [(a, b) => new Date(b.date).getTime() - new Date(a.date).getTime()].
    [getTime] stands for [s => new Date(s).getTime()]: the time value of
    the date in milliseconds, [None] being [NaN] (an invalid date).  A
    difference with a [NaN] operand is [NaN]. *)
Definition byDateDesc {A} (getTime : string → option Z) (date : A → string)
    (a b : A) : option Z :=
  match getTime (date b), getTime (date a) with
  | Some tb, Some ta => Some (tb - ta)%Z
  | _, _ => None
  end.

(** The comparator of [app/projects/page.tsx]. *)
Definition byOrder (a b : ProjectDoc) : option Z :=
  match pj_order a, pj_order b with
  | Some oa, Some ob => Some (oa - ob)%Z
  | Some _, None => Some (-1)%Z
  | None, Some _ => Some 1%Z
  | None, None => Some 0%Z
  end.

(** [v || 0] for a number or [undefined]: a falsy [v] ([undefined], [0])
    gives [0]. *)
Definition orZero (v : option Z) : Z :=
  match v with
  | Some n => if (n =? 0)%Z then 0%Z else n
  | None => 0%Z
  end.

(** ** app/writing/page.tsx *)

Module WritingPage.
Section WithDate.
Variable Date_getTime : string → option Z.

Definition sortedPosts : Method WritingPostDoc (list WritingPostDoc) :=
  Array_sort (byDateDesc Date_getTime wp_date).

(** [Array.from(new Set(sortedPosts.flatMap((post) => post.tags)))]. *)
Definition allTags : Method WritingPostDoc (list string) :=
  λ sortedPosts,
    let '(flat, sortedPosts') := Array_flatMap wp_tags sortedPosts in
    (Array_from_Set flat, sortedPosts').
End WithDate.
End WritingPage.

(** ** app/polyglot/page.tsx *)

Module PolyglotPage.
Section WithDate.
Variable Date_getTime : string → option Z.

Definition sortedPosts : Method PolyglotPostDoc (list PolyglotPostDoc) :=
  Array_sort (byDateDesc Date_getTime pp_date).
End WithDate.

(** [selectedLanguage] is the page's state, a string. *)
Definition filteredPosts (selectedLanguage : string)
  : Method PolyglotPostDoc (list PolyglotPostDoc) :=
  λ sortedPosts,
    if decide (selectedLanguage = "all") then (sortedPosts, sortedPosts)
    else Array_filter (λ post, code (pp_language post) = selectedLanguage)
           sortedPosts.

(** The [reduce] starts from the empty object and, for each post, sets
    [acc[post.language] = (acc[post.language] || 0) + 1]. *)
Definition languageCounts : Method PolyglotPostDoc (gmap string Z) :=
  Array_reduce
    (λ (acc : gmap string Z) post,
       <[code (pp_language post) :=
           (orZero (acc !! code (pp_language post)) + 1)%Z]> acc)
    ∅.

(** What a statistics tile shows for a language:
    [languageCounts[k] || 0]. *)
Definition shownCount (counts : gmap string Z) (k : string) : Z :=
  orZero (counts !! k).
End PolyglotPage.

(** ** app/projects/page.tsx *)

Module ProjectsPage.
Definition sortedProjects : Method ProjectDoc (list ProjectDoc) :=
  Array_sort byOrder.
End ProjectsPage.

(** ** app/page.tsx *)

Module Home.
Section WithDate.
Variable Date_getTime : string → option Z.

(** [allWritingPosts.sort(...).slice(0, 3)]: [slice] is called on the
    array [sort] returns, which is the receiver of [sort]. *)
Definition recentWritingPosts : Method WritingPostDoc (list WritingPostDoc) :=
  λ allWritingPosts,
    let '(sorted, _) := Array_sort (byDateDesc Date_getTime wp_date) allWritingPosts in
    Array_slice0 3 sorted.

Definition recentPolyglotPosts : Method PolyglotPostDoc (list PolyglotPostDoc) :=
  λ allPolyglotPosts,
    let '(sorted, _) := Array_sort (byDateDesc Date_getTime pp_date) allPolyglotPosts in
    Array_slice0 3 sorted.
End WithDate.
End Home.

(** ** app/writing/[slug]/page.tsx and app/polyglot/[slug]/page.tsx *)

(** How a detail page ends: [notFound()] hands over to the not-found page;
    [format(new Date(post.date), "MMMM dd, yyyy")] throws a [RangeError]
    when the date of the post is invalid; otherwise the article of the
    post is returned.  The article is a function of the post alone, so the
    post stands for it. *)
Inductive PageOutcome (A : Type) : Type :=
  | NotFound
  | RangeError (post : A)
  | Rendered (post : A).
Global Arguments NotFound {A}.
Global Arguments RangeError {A} post.
Global Arguments Rendered {A} post.

Section DetailPages.
Variable Date_getTime : string → option Z.

(** After the lookup and the [notFound()] guard, the first thing the page
    does with the post is to format its date, which throws when
    [new Date(post.date).getTime()] is [NaN]. *)
Definition WritingPostPage (slug : string)
  : Method WritingPostDoc (PageOutcome WritingPostDoc) :=
  λ allWritingPosts,
    let '(post, allWritingPosts') :=
      Array_find (λ p, wp_slug p = slug) allWritingPosts in
    (match post with
     | None => NotFound
     | Some post =>
         match Date_getTime (wp_date post) with
         | None => RangeError post
         | Some _ => Rendered post
         end
     end, allWritingPosts').

Definition PolyglotPostPage (slug : string)
  : Method PolyglotPostDoc (PageOutcome PolyglotPostDoc) :=
  λ allPolyglotPosts,
    let '(post, allPolyglotPosts') :=
      Array_find (λ p, pp_slug p = slug) allPolyglotPosts in
    (match post with
     | None => NotFound
     | Some post =>
         match Date_getTime (pp_date post) with
         | None => RangeError post
         | Some _ => Rendered post
         end
     end, allPolyglotPosts').
End DetailPages.

(** ** components/ProjectCard.tsx *)

Module ProjectCard.

Record Props : Type := {
  title : string;
  description : string;
  technologies : list string;
  github : option string;
  liveUrl : option string;
  image : option string;
  index : option Z;
  status : option Status;
  relatedPost : option string
}.

(** The links of a card, by place. *)
Inductive Place : Type :=
  | GithubButton | LiveDemoButton | RelatedPostButton | RelatedPostLine.

Record LinkElement : Type := mkLink { place : Place; href : string }.

(** [{v && <Link .../>}] for an optional string: the element is there
    when [v] is truthy, that is a string that is not empty. *)
Definition whenTruthy (v : option string) (element : string → LinkElement)
  : list LinkElement :=
  match v with
  | Some s => if decide (s = ""%string) then [] else [element s]
  | None => []
  end.

(** The [Link] elements of the card in document order: the three buttons
    of the hover overlay, then the line under the technologies. *)
Definition links (props : Props) : list LinkElement :=
  whenTruthy (github props) (λ s, mkLink GithubButton s)
  ++ whenTruthy (liveUrl props) (λ s, mkLink LiveDemoButton s)
  ++ whenTruthy (relatedPost props)
       (λ s, mkLink RelatedPostButton ("/writing/" +:+ s))
  ++ whenTruthy (relatedPost props)
       (λ s, mkLink RelatedPostLine ("/writing/" +:+ s)).

(** The props [app/projects/page.tsx] passes for a project. *)
Definition propsOf (i : Z) (project : ProjectDoc) : Props := {|
  title := pj_title project;
  description := pj_description project;
  technologies := pj_technologies project;
  github := pj_github project;
  liveUrl := pj_liveUrl project;
  image := pj_image project;
  index := Some i;
  status := pj_status project;
  relatedPost := pj_relatedPost project
|}.

(** A slug that no post of the collection has. *)
Definition dangling (allWritingPosts : list WritingPostDoc) (slug : string)
  : Prop :=
  ∀ post, post ∈ allWritingPosts → wp_slug post ≠ slug.

End ProjectCard.

(** ** Materialization *)

Module Materializer.

(** A frontmatter value as the YAML block gives it. *)
Inductive RawValue : Type :=
  | VString (s : string)
  | VNumber (n : Z)
  | VBool (b : bool)
  | VList (items : list RawValue).

(** Modelled from the spec: the failures of materialization,
    [ValidationError{field, reason}] and [MalformedDate], and the record it
    makes ([kind], [rawPath], the fields). *)
Inductive Reason : Type := Missing | WrongType | NotAnOption.

Inductive MaterializeError : Type :=
  | ValidationError (field : string) (reason : Reason)
  | MalformedDate (field : string).

Record ContentRecord : Type := {
  kind : string;
  rawPath : string;
  values : gmap string RawValue
}.

Section WithDate.
Variable Date_getTime : string → option Z.

(** Modelled from the spec: the check of the value of a field against
    the type the field declares.  The validation is done by the content
    framework, whose code is not part of the repository; the schema it
    reads is ([fields] above).  A value whose runtime type or enum
    membership does not match is a [ValidationError]; a date that does
    not parse is a [MalformedDate]. *)
Fixpoint checkValue (field : string) (t : FieldType) (v : RawValue)
  : list MaterializeError :=
  match t, v with
  | TString, VString _ => []
  | TDate, VString s =>
      match Date_getTime s with
      | Some _ => []
      | None => [MalformedDate field]
      end
  | TNumber, VNumber _ => []
  | TEnum options, VString s =>
      if decide (s ∈ options) then []
      else [ValidationError field NotAnOption]
  | TListOf elem, VList items => concat (checkValue field elem <$> items)
  | _, _ => [ValidationError field WrongType]
  end.

(** Modelled from the spec: the check of one declared field of the
    schema against the frontmatter.  A materialized record has to
    satisfy the required fields of its kind: a required field that is
    missing is a [ValidationError] naming it, and the value of a
    required field has to match the declared type.  An optional field
    may be absent, and its value is taken as the entry gives it. *)
Definition checkField (frontmatter : gmap string RawValue)
    (fd : string * FieldDef) : list MaterializeError :=
  if required fd.2 then
    match frontmatter !! fd.1 with
    | None => [ValidationError fd.1 Missing]
    | Some v => checkValue fd.1 (field_type fd.2) v
    end
  else [].

(** Modelled from the spec: the errors of an entry, the declared fields
    taken in the order of the schema. *)
Definition validate (dt : DocumentType) (frontmatter : gmap string RawValue)
  : list MaterializeError :=
  concat (checkField frontmatter <$> fields dt).

(** Modelled from the spec: [materialize(kind, rawPath, frontmatter,
    body)], the framework's validation and derivation step.  It fails
    with the errors of the entry, one for each offending field, and
    otherwise makes the record: the declared fields the frontmatter
    gives, and the computed fields, which win over an authored field
    of the same name. *)
Definition materialize (dt : DocumentType) (path : string)
    (frontmatter : gmap string RawValue) (body : string)
  : list MaterializeError + ContentRecord :=
  match validate dt frontmatter with
  | [] =>
      inr {| kind := name dt;
             rawPath := path;
             values :=
               (VString <$> resolveComputed dt path)
               ∪ filter (λ kv, kv.1 ∈ fst <$> fields dt) frontmatter |}
  | errors => inl errors
  end.

(** Modelled from the spec: what it is for a value to be of a declared
    type ([string], [date], [number], [enum<options>], [list<...>]): a
    string; a string that parses into a date; a number; a string that is
    one of the options; a list of values of the element type.  The
    validator is not referred to. *)
Fixpoint hasType (t : FieldType) (v : RawValue) : Prop :=
  match t, v with
  | TString, VString _ => True
  | TDate, VString s => is_Some (Date_getTime s)
  | TNumber, VNumber _ => True
  | TEnum options, VString s => s ∈ options
  | TListOf elem, VList items => Forall (hasType elem) items
  | _, _ => False
  end.

End WithDate.

End Materializer.

(** ** Orders the sorts aim at *)

(** [a] is dated no earlier than [b]; both dates are valid. *)
Definition notOlder {A} (getTime : string → option Z) (date : A → string)
    (a b : A) : Prop :=
  match getTime (date a), getTime (date b) with
  | Some ta, Some tb => (tb ≤ ta)%Z
  | _, _ => False
  end.

Definition validDate {A} (getTime : string → option Z) (date : A → string)
    (a : A) : Prop :=
  is_Some (getTime (date a)).

Definition hasOrder (p : ProjectDoc) : Prop := is_Some (pj_order p).
Definition lacksOrder (p : ProjectDoc) : Prop := pj_order p = None.

Global Instance hasOrder_dec p : Decision (hasOrder p).
Proof. unfold hasOrder. apply _. Defined.

Global Instance lacksOrder_dec p : Decision (lacksOrder p).
Proof. unfold lacksOrder. apply _. Defined.

(** [a] may stand before [b] on the projects page: by ascending [order],
    a project with an [order] before one without. *)
Definition orderBefore (a b : ProjectDoc) : Prop :=
  match pj_order a, pj_order b with
  | Some oa, Some ob => (oa ≤ ob)%Z
  | Some _, None => True
  | None, Some _ => False
  | None, None => True
  end.

(** The number of posts written in the language with code [k]. *)
Definition postsIn (k : string) (posts : list PolyglotPostDoc) : nat :=
  length (filter (λ post, code (pp_language post) = k) posts).

(** ** Sample content *)

Module Sample.

(** [new Date(s).getTime()] on the dates used below. *)
Definition getTime (s : string) : option Z :=
  if decide (s = "2026-01-15"%string) then Some 1768435200000%Z
  else if decide (s = "2026-02-01"%string) then Some 1769904000000%Z
  else None.

Definition post (slug date : string) (tags : list string) : WritingPostDoc := {|
  wp_title := slug;
  wp_date := date;
  wp_description := "";
  wp_tags := tags;
  wp_image := None;
  wp_slug := slug;
  wp_url := "/writing/" +:+ slug
|}.

Definition note (slug date : string) (language : Language) : PolyglotPostDoc := {|
  pp_title := slug;
  pp_date := date;
  pp_description := "";
  pp_language := language;
  pp_slug := slug;
  pp_url := "/polyglot/" +:+ slug
|}.

Definition project (slug : string) (order : option Z)
    (relatedPost : option string) : ProjectDoc := {|
  pj_title := slug;
  pj_description := "";
  pj_technologies := [];
  pj_github := None;
  pj_liveUrl := None;
  pj_image := None;
  pj_order := order;
  pj_status := None;
  pj_relatedPost := relatedPost;
  pj_slug := slug
|}.

Definition older : WritingPostDoc := post "first" "2026-01-15" ["react"; "js"].
Definition newer : WritingPostDoc := post "second" "2026-02-01" ["js"; "python"].

Definition notes : list PolyglotPostDoc :=
  [ note "a" "2026-02-01" jp; note "b" "2026-02-01" en;
    note "c" "2026-01-15" jp; note "d" "2026-01-15" es ].

Definition A : ProjectDoc := project "A" (Some 2%Z) None.
Definition B : ProjectDoc := project "B" None (Some "ghost"%string).
Definition C : ProjectDoc := project "C" (Some 1%Z) None.

Import Materializer.


(** A project entry with its required fields, and a [status] that is
    not among the options of that optional field. *)
Definition projectFrontmatter : gmap string RawValue :=
  {[ "title"%string := VString "Project Name";
     "description"%string := VString "What the project does";
     "technologies"%string := VList [VString "React"];
     "status"%string := VString "done" ]}.

End Sample.

(** ** More array methods *)

(** [arr.map(f)] and [arr.map((x, i) => f(x, i))]. *)
Definition Array_map {A B} (f : A → B) : Method A (list B) :=
  λ arr, (f <$> arr, arr).

Definition Array_mapi {A B} (f : A → Z → B) : Method A (list B) :=
  λ arr, (imap (λ i x, f x (Z.of_nat i)) arr, arr).

(** [arr[i]] for an integer [i]: the element, or [undefined] out of
    range. *)
Definition Array_get {A} (arr : list A) (i : Z) : option A :=
  if (i <? 0)%Z then None else arr !! Z.to_nat i.

(** A computation that may throw: reading a property of [undefined]
    throws a [TypeError]. *)
Inductive Throws (A : Type) : Type :=
  | Returns (a : A)
  | TypeError.
Global Arguments Returns {A} a.
Global Arguments TypeError {A}.

(** [v.field] for [v] an object or [undefined]. *)
Definition readField {A B} (v : option A) (field : A → B) : Throws B :=
  match v with
  | Some a => Returns (field a)
  | None => TypeError
  end.

(** ** components/Header.tsx *)

Module Header.

Record NavItem : Type := { label : string; href : string }.

Definition navigationItems : list NavItem :=
  [ {| label := "Home"; href := "/" |};
    {| label := "About"; href := "/about" |};
    {| label := "Projects"; href := "/projects" |};
    {| label := "Writing"; href := "/writing" |};
    {| label := "Polyglot"; href := "/polyglot" |} ].

(** [pathname] is what [usePathname()] returns. *)
Definition isActiveLink (pathname href : string) : bool :=
  if decide (href = "/"%string) then bool_decide (pathname = "/"%string)
  else JsString.startsWith href pathname.

End Header.

(** ** components/PostCard.tsx (props) *)

Module PostCard.

Record Props : Type := {
  title : string;
  description : string;
  date : string;
  slug : string;
  tags : option (list string);
  language : option string;
  href : string;
  index : option Z
}.

End PostCard.

(** ** components/LanguageFilter.tsx *)

Module LanguageFilter.

Record LanguageOption : Type := { code : string; label : string; flag : string }.

Definition languages : list LanguageOption :=
  [ {| code := "all"; label := "All"; flag := "🌐" |};
    {| code := "en"; label := "English"; flag := "🇺🇸" |};
    {| code := "jp"; label := "日本語"; flag := "🇯🇵" |};
    {| code := "kr"; label := "한국어"; flag := "🇰🇷" |};
    {| code := "es"; label := "Español"; flag := "🇪🇸" |} ].

(** A button of the filter: the code its [onClick] passes to
    [onSelectLanguage], and whether it is drawn as the selected one. *)
Record Button : Type := { onClick : string; isSelected : bool }.

Definition buttons (selectedLanguage : string) : list Button :=
  (λ lang, {| onClick := code lang;
              isSelected := bool_decide (selectedLanguage = code lang) |})
    <$> languages.

End LanguageFilter.

(** ** Generated pages and metadata of the detail routes *)

Record OpenGraph : Type := {
  og_title : string;
  og_description : string;
  og_type : string;
  og_publishedTime : string;
  og_tags : option (list string)
}.

Record Metadata : Type := {
  md_title : string;
  md_description : option string;
  md_openGraph : option OpenGraph
}.

(** The parameters of one pre-built page. *)
Record Params : Type := { param_slug : string }.

(** [app/writing/[slug]/page.tsx]. *)
Module WritingRoute.

Definition generateStaticParams : Method WritingPostDoc (list Params) :=
  Array_map (λ post, {| param_slug := wp_slug post |}).

Definition generateMetadata (slug : string) : Method WritingPostDoc Metadata :=
  λ allWritingPosts,
    let '(post, allWritingPosts') :=
      Array_find (λ p, wp_slug p = slug) allWritingPosts in
    (match post with
     | None =>
         {| md_title := "Post Not Found";
            md_description := None;
            md_openGraph := None |}
     | Some post =>
         {| md_title := wp_title post;
            md_description := Some (wp_description post);
            md_openGraph :=
              Some {| og_title := wp_title post;
                      og_description := wp_description post;
                      og_type := "article";
                      og_publishedTime := wp_date post;
                      og_tags := Some (wp_tags post) |} |}
     end, allWritingPosts').

End WritingRoute.

(** [app/polyglot/[slug]/page.tsx]. *)
Module PolyglotRoute.

Record Display : Type := { name : string; flag : string }.

Definition languageDisplay : gmap string Display :=
  list_to_map
  [ ("jp"%string, {| name := "Japanese"; flag := "üáØüáµ" |});
    ("kr"%string, {| name := "Korean"; flag := "üá∞üá∑" |});
    ("en"%string, {| name := "English"; flag := "üá∫üá∏" |});
    ("es"%string, {| name := "Spanish"; flag := "üá™üá∏" |}) ].

(** [v || ""] for a string or [undefined]. *)
Definition orEmpty (v : option string) : string :=
  match v with
  | Some s => s
  | None => ""
  end.

Definition generateStaticParams : Method PolyglotPostDoc (list Params) :=
  Array_map (λ post, {| param_slug := pp_slug post |}).

Definition generateMetadata (slug : string) : Method PolyglotPostDoc Metadata :=
  λ allPolyglotPosts,
    let '(post, allPolyglotPosts') :=
      Array_find (λ p, pp_slug p = slug) allPolyglotPosts in
    (match post with
     | None =>
         {| md_title := "Post Not Found";
            md_description := None;
            md_openGraph := None |}
     | Some post =>
         let lang := languageDisplay !! code (pp_language post) in
         {| md_title := pp_title post +:+ " " +:+ orEmpty (flag <$> lang);
            md_description := Some (pp_description post);
            md_openGraph :=
              Some {| og_title := pp_title post;
                      og_description := pp_description post;
                      og_type := "article";
                      og_publishedTime := pp_date post;
                      og_tags := None |} |}
     end, allPolyglotPosts').

End PolyglotRoute.

(** ** What the list pages render *)

(** The part of a page that lists posts (or projects): the grid of cards,
    or one of the placeholders. *)
Inductive ListArea (Card : Type) : Type :=
  | Grid (cards : list Card)
  | NoPostsYet
  | NoPostsInThisLanguage.
Global Arguments Grid {Card} cards.
Global Arguments NoPostsYet {Card}.
Global Arguments NoPostsInThisLanguage {Card}.

(** [app/polyglot/page.tsx]: the component, as the values its markup
    depends on. *)
Module PolyglotView.

Record Stats : Type := {
  japanese : Z;
  korean : Z;
  english : Z;
  spanish : Z
}.

Record View : Type := {
  showing : nat;
  noun : string;
  area : ListArea PostCard.Props;
  stats : option Stats
}.

Definition card (post : PolyglotPostDoc) (index : Z) : PostCard.Props := {|
  PostCard.title := pp_title post;
  PostCard.description := pp_description post;
  PostCard.date := pp_date post;
  PostCard.slug := pp_slug post;
  PostCard.tags := None;
  PostCard.language := Some (code (pp_language post));
  PostCard.href := pp_url post;
  PostCard.index := Some index
|}.

Section WithDate.
Variable Date_getTime : string → option Z.

Definition render (selectedLanguage : string) : Method PolyglotPostDoc View :=
  λ allPolyglotPosts,
    let '(sortedPosts, allPolyglotPosts') :=
      PolyglotPage.sortedPosts Date_getTime allPolyglotPosts in
    let filteredPosts :=
      (PolyglotPage.filteredPosts selectedLanguage sortedPosts).1 in
    let languageCounts := (PolyglotPage.languageCounts sortedPosts).1 in
    ({| showing := length filteredPosts;
        noun := if decide (length filteredPosts = 1) then "post" else "posts";
        area :=
          if decide (0 < length filteredPosts)
          then Grid (Array_mapi card filteredPosts).1
          else if decide (length sortedPosts = 0) then NoPostsYet
               else NoPostsInThisLanguage;
        stats :=
          if decide (0 < length sortedPosts)
          then Some {| japanese := PolyglotPage.shownCount languageCounts "jp";
                       korean := PolyglotPage.shownCount languageCounts "kr";
                       english := PolyglotPage.shownCount languageCounts "en";
                       spanish := PolyglotPage.shownCount languageCounts "es" |}
          else None |},
     allPolyglotPosts').
End WithDate.

(** The state [selectedLanguage]: ["all"] at first; the page hands
    [setSelectedLanguage] to the filter as [onSelectLanguage], so a click
    on a button makes the code of the button the state. *)
Definition initialLanguage : string := "all".

Inductive reachable : string → Prop :=
  | reachable_initial : reachable initialLanguage
  | reachable_click selectedLanguage button :
      reachable selectedLanguage →
      button ∈ LanguageFilter.buttons selectedLanguage →
      reachable (LanguageFilter.onClick button).

End PolyglotView.

(** [app/writing/page.tsx]: the component. *)
Module WritingView.

(** The two years of the statistics are [new Date(d).getFullYear()] of the
    dates held here. *)
Record Stats : Type := {
  totalPosts : nat;
  topics : nat;
  latestYearOf : string;
  startedOf : string
}.

Record View : Type := {
  tagsBar : option (list string);
  area : ListArea PostCard.Props;
  stats : option Stats
}.

Definition card (post : WritingPostDoc) (index : Z) : PostCard.Props := {|
  PostCard.title := wp_title post;
  PostCard.description := wp_description post;
  PostCard.date := wp_date post;
  PostCard.slug := wp_slug post;
  PostCard.tags := Some (wp_tags post);
  PostCard.language := None;
  PostCard.href := wp_url post;
  PostCard.index := Some index
|}.

(** The statistics block reads [sortedPosts[0].date] and
    [sortedPosts[sortedPosts.length - 1].date]. *)
Definition statsOf (sortedPosts : list WritingPostDoc) (allTags : list string)
  : Throws Stats :=
  match readField (Array_get sortedPosts 0) wp_date,
        readField (Array_get sortedPosts (Z.of_nat (length sortedPosts) - 1))
          wp_date with
  | Returns latest, Returns started =>
      Returns {| totalPosts := length sortedPosts;
                 topics := length allTags;
                 latestYearOf := latest;
                 startedOf := started |}
  | _, _ => TypeError
  end.

Section WithDate.
Variable Date_getTime : string → option Z.

Definition render : Method WritingPostDoc (Throws View) :=
  λ allWritingPosts,
    let '(sortedPosts, allWritingPosts') :=
      WritingPage.sortedPosts Date_getTime allWritingPosts in
    let allTags := (WritingPage.allTags sortedPosts).1 in
    let tagsBar := if decide (0 < length allTags) then Some allTags else None in
    let area :=
      if decide (0 < length sortedPosts)
      then Grid (Array_mapi card sortedPosts).1 else NoPostsYet in
    (if decide (0 < length sortedPosts)
     then match statsOf sortedPosts allTags with
          | Returns stats =>
              Returns {| tagsBar := tagsBar; area := area; stats := Some stats |}
          | TypeError => TypeError
          end
     else Returns {| tagsBar := tagsBar; area := area; stats := None |},
     allWritingPosts').
End WithDate.

End WritingView.

(** [app/page.tsx]: the two sections of recent posts, each rendered when
    its list is not empty. *)
Module HomeView.
Section WithDate.
Variable Date_getTime : string → option Z.

Definition recentWriting : Method WritingPostDoc (option (list PostCard.Props)) :=
  λ allWritingPosts,
    let '(recentWritingPosts, allWritingPosts') :=
      Home.recentWritingPosts Date_getTime allWritingPosts in
    (if decide (0 < length recentWritingPosts)
     then Some (Array_mapi WritingView.card recentWritingPosts).1 else None,
     allWritingPosts').

Definition recentPolyglot : Method PolyglotPostDoc (option (list PostCard.Props)) :=
  λ allPolyglotPosts,
    let '(recentPolyglotPosts, allPolyglotPosts') :=
      Home.recentPolyglotPosts Date_getTime allPolyglotPosts in
    (if decide (0 < length recentPolyglotPosts)
     then Some (Array_mapi PolyglotView.card recentPolyglotPosts).1 else None,
     allPolyglotPosts').
End WithDate.
End HomeView.

(** * Properties *)


(** ** Strings *)

Section JsStringFacts.
Import JsString.

Lemma startsWith_app pat rest : startsWith pat (pat +:+ rest) = true.
Proof.
  induction pat as [|a pat IH]; simpl; [done|].
  by rewrite Ascii.eqb_refl.
Qed.

Lemma slice_from_app pat rest :
  slice_from (String.length pat) (pat +:+ rest) = rest.
Proof. induction pat as [|a pat IH]; simpl; [by destruct rest|done]. Qed.

Lemma replace_unfold pat rep s :
  replace pat rep s =
    if startsWith pat s then rep +:+ slice_from (String.length pat) s
    else match s with
         | EmptyString => EmptyString
         | String c s' => String c (replace pat rep s')
         end.
Proof. by destruct s. Qed.

(** A leading occurrence is the leftmost one. *)
Lemma replace_prefix pat rep rest :
  replace pat rep (pat +:+ rest) = rep +:+ rest.
Proof.
  by rewrite replace_unfold, startsWith_app, slice_from_app.
Qed.

Lemma startsWith_length pat s :
  startsWith pat s = true →
  String.length (slice_from (String.length pat) s) + String.length pat
    = String.length s.
Proof.
  revert s. induction pat as [|a pat IH]; intros s; simpl.
  - intros _. destruct s; simpl; lia.
  - destruct s as [|b s]; [done|].
    destruct (Ascii.eqb a b); [|done].
    intros H. simpl. specialize (IH s H). lia.
Qed.

Lemma replace_absent pat rep s : includes pat s = false → replace pat rep s = s.
Proof.
  induction s as [|c s IH]; simpl.
  - by destruct (startsWith pat "").
  - destruct (startsWith pat (String c s)); [done|].
    intros H. by rewrite IH.
Qed.

Lemma replace_present_length pat s :
  includes pat s = true →
  String.length (replace pat "" s) + String.length pat = String.length s.
Proof.
  induction s as [|c s IH]; rewrite replace_unfold.
  - simpl. destruct (startsWith pat "") eqn:E; [|done].
    intros _. by apply startsWith_length in E.
  - simpl includes.
    destruct (startsWith pat (String c s)) eqn:E.
    + intros _. by apply startsWith_length in E.
    + intros H. simpl. by rewrite <-(IH H).
Qed.

(** Removing the first occurrence of a pattern that is not empty changes
    the string exactly when there is an occurrence. *)
Lemma replace_fixed_iff pat s :
  pat ≠ ""%string →
  replace pat "" s = s ↔ includes pat s = false.
Proof.
  intros Hpat. split; [|apply replace_absent].
  destruct (includes pat s) eqn:E; [|done].
  intros Heq. apply replace_present_length in E. rewrite Heq in E.
  destruct pat; [done|]. simpl in E. lia.
Qed.
End JsStringFacts.

(** ** Slug and url *)

Lemma stripNamespace_prefix ns rest : stripNamespace ns (ns +:+ rest) = rest.
Proof. unfold stripNamespace. by rewrite replace_prefix. Qed.

(** C1.  For an entry whose path is the directory segment of its type
    followed by [rest], the computed [slug] is [rest] as it stands, the
    computed [url] is ["/writing/" + slug] for a writing post and
    ["/polyglot/" + slug] for a polyglot post, and a project has only the
    [slug]: no field of its configuration, authored or computed, is called
    [url]. *)
Theorem computed_slug_url (rest : string) :
  resolveComputed WritingPost ("writing/" +:+ rest) !! "slug"%string = Some rest
  ∧ resolveComputed WritingPost ("writing/" +:+ rest) !! "url"%string
    = Some ("/writing/" +:+ rest)
  ∧ resolveComputed PolyglotPost ("polyglot/" +:+ rest) !! "slug"%string = Some rest
  ∧ resolveComputed PolyglotPost ("polyglot/" +:+ rest) !! "url"%string
    = Some ("/polyglot/" +:+ rest)
  ∧ resolveComputed Project ("projects/" +:+ rest) !! "slug"%string = Some rest
  ∧ resolveComputed Project ("projects/" +:+ rest) !! "url"%string = None
  ∧ "url"%string ∉ fieldNames Project.
Proof.
  unfold resolveComputed. cbn [computedFields WritingPost PolyglotPost Project
    fmap list_fmap prod_map list_to_map id fst snd].
  rewrite !stripNamespace_prefix, !list_to_map_cons, !list_to_map_nil.
  split_and!.
  - by rewrite lookup_insert_eq.
  - by rewrite lookup_insert_ne, lookup_insert_eq.
  - by rewrite lookup_insert_eq.
  - by rewrite lookup_insert_ne, lookup_insert_eq.
  - by rewrite lookup_insert_eq.
  - by rewrite lookup_insert_ne.
  - unfold fieldNames. cbn. intros Hin.
    repeat (apply elem_of_cons in Hin as [Hin|Hin]; [discriminate Hin|]).
    by apply elem_of_nil in Hin.
Qed.

(** The example of the README: [writing/my-post]. *)
Example computed_my_post :
  resolveComputed WritingPost "writing/my-post" !! "slug"%string = Some "my-post"%string
  ∧ resolveComputed WritingPost "writing/my-post" !! "url"%string
    = Some "/writing/my-post"%string.
Proof. by vm_compute. Qed.

(** C10.  For each of the three directory segments, the slug derivation is
    injective on the paths under the segment: two such paths with the same
    slug are the same path.  Deriving again from a slug gives the slug
    back exactly when the segment does not occur inside the slug. *)
Theorem slug_injective_fixed (ns : string) :
  ns ∈ namespaces →
  (∀ rest1 rest2,
     stripNamespace ns (ns +:+ rest1) = stripNamespace ns (ns +:+ rest2) →
     ns +:+ rest1 = ns +:+ rest2)
  ∧ (∀ slug,
       stripNamespace ns slug = slug ↔ JsString.includes ns slug = false).
Proof.
  intros Hns. split.
  - intros rest1 rest2. rewrite !stripNamespace_prefix. by intros ->.
  - intros slug. apply replace_fixed_iff. intros ->.
    unfold namespaces in Hns.
    repeat (apply elem_of_cons in Hns as [Hns|Hns]; [discriminate Hns|]).
    by apply elem_of_nil in Hns.
Qed.

Lemma slug_injective_fixed_witness :
  "writing/"%string ∈ namespaces
  ∧ (∀ rest1 rest2,
       stripNamespace "writing/" ("writing/" +:+ rest1)
         = stripNamespace "writing/" ("writing/" +:+ rest2) →
       "writing/" +:+ rest1 = "writing/" +:+ rest2)
  ∧ (∀ slug,
       stripNamespace "writing/" slug = slug
       ↔ JsString.includes "writing/" slug = false).
Proof.
  assert (Hin : "writing/"%string ∈ namespaces) by (unfold namespaces; left).
  split; [exact Hin|]. exact (slug_injective_fixed "writing/" Hin).
Defined.

(** The derivation is not idempotent: the post in [content/writing/writing/]
    gets the slug [writing/notes], from which a second derivation makes
    [notes]. *)
Lemma slug_not_idempotent :
  stripNamespace "writing/" "writing/writing/notes" = "writing/notes"%string
  ∧ stripNamespace "writing/" (stripNamespace "writing/" "writing/writing/notes")
    ≠ stripNamespace "writing/" "writing/writing/notes".
Proof. split; by vm_compute. Qed.

(** ** Array.prototype.sort *)

Section ArraySortFacts.
Context {A : Type} (comparefn : A → A → option Z).

Local Abbreviation cmp := (compareElements comparefn).
Local Abbreviation ins := (insertSorted comparefn).
Local Abbreviation srt := (sortElements comparefn).

Lemma insertSorted_cons x y l :
  ins x (y :: l) = if (cmp x y <=? 0)%Z then x :: y :: l else y :: ins x l.
Proof. done. Qed.

Lemma insertSorted_perm x l : ins x l ≡ₚ x :: l.
Proof.
  induction l as [|y l IH]; simpl; [done|].
  destruct (cmp x y <=? 0)%Z; [done|].
  by rewrite IH, Permutation_swap.
Qed.

Lemma sortElements_perm l : srt l ≡ₚ l.
Proof.
  induction l as [|x l IH]; simpl; [done|].
  by rewrite insertSorted_perm, IH.
Qed.

(** Stability: elements that compare as equal among themselves are never
    moved past one another. *)
Lemma insertSorted_filter (P : A → Prop) `{∀ x, Decision (P x)} x l :
  (∀ y z, P y → P z → (cmp y z ≤ 0)%Z) →
  filter P (ins x l) = filter P (x :: l).
Proof.
  intros Heq. induction l as [|y l IH]; simpl; [done|].
  destruct (Z.leb_spec (cmp x y) 0) as [Hle|Hgt]; [done|].
  rewrite filter_cons, IH, !filter_cons.
  destruct (decide (P y)) as [Hy|Hy], (decide (P x)) as [Hx|Hx]; try done.
  specialize (Heq x y Hx Hy). lia.
Qed.

Lemma sortElements_filter (P : A → Prop) `{∀ x, Decision (P x)} l :
  (∀ y z, P y → P z → (cmp y z ≤ 0)%Z) →
  filter P (srt l) = filter P l.
Proof.
  intros Heq. induction l as [|x l IH]; simpl; [done|].
  rewrite insertSorted_filter by done.
  by rewrite !filter_cons, IH.
Qed.

(** Order: on a domain [D] where the comparisons decide a total and
    transitive relation [R], the result is arranged by [R]. *)
Section Ordered.
Variables (R : relation A) (D : A → Prop).
Hypothesis cmp_le : ∀ x y, D x → D y → (cmp x y ≤ 0)%Z → R x y.
Hypothesis cmp_gt : ∀ x y, D x → D y → (0 < cmp x y)%Z → R y x.
Hypothesis R_trans : ∀ x y z, D x → D y → D z → R x y → R y z → R x z.

Lemma insertSorted_sorted x l :
  D x → Forall D l → StronglySorted R l → StronglySorted R (ins x l).
Proof.
  intros Hx Hl Hs. induction l as [|y l IH]; simpl.
  - repeat constructor.
  - apply Forall_cons in Hl as [Hy Hl].
    apply StronglySorted_inv in Hs as [Hs Hyl].
    destruct (Z.leb_spec (cmp x y) 0) as [Hle|Hgt].
    + constructor; [by constructor|].
      constructor; [by apply cmp_le|].
      rewrite Forall_forall in Hyl, Hl. apply Forall_forall.
      intros z Hz. apply (R_trans x y z); auto.
    + constructor; [by apply IH|].
      rewrite insertSorted_perm. constructor; [by apply cmp_gt|done].
Qed.

Lemma sortElements_sorted l : Forall D l → StronglySorted R (srt l).
Proof.
  induction l as [|x l IH]; simpl; [constructor|].
  intros [Hx Hl]%Forall_cons.
  apply insertSorted_sorted; [done| |by apply IH].
  by rewrite sortElements_perm.
Qed.
End Ordered.

(** The arrangement is the only one: on a domain where the comparisons
    are consistent (reflexive, total, transitive), a rearrangement of the
    array that is in comparison order and keeps tied elements in the order
    of the array is the one [sortElements] computes, so that every stable
    sort returns it. *)
Lemma insertSorted_filter_in (P : A → Prop) `{∀ x, Decision (P x)} x l :
  (∀ y, y ∈ l → P x → P y → (cmp x y ≤ 0)%Z) →
  filter P (ins x l) = filter P (x :: l).
Proof.
  intros Heq. induction l as [|y l IH]; simpl; [done|].
  destruct (Z.leb_spec (cmp x y) 0) as [Hle|Hgt]; [done|].
  rewrite filter_cons, IH, !filter_cons.
  - destruct (decide (P y)) as [Hy|Hy], (decide (P x)) as [Hx|Hx]; try done.
    assert (cmp x y ≤ 0)%Z by (apply Heq; [left|done|done]). lia.
  - intros z Hz. apply Heq. by right.
Qed.

Lemma sortElements_filter_in (P : A → Prop) `{∀ x, Decision (P x)} l :
  (∀ y z, y ∈ l → z ∈ l → P y → P z → (cmp y z ≤ 0)%Z) →
  filter P (srt l) = filter P l.
Proof.
  induction l as [|x l IH]; intros Heq; simpl; [done|].
  rewrite insertSorted_filter_in.
  - rewrite !filter_cons, IH; [done|].
    intros y z Hy Hz. apply Heq; by right.
  - intros y Hy. rewrite sortElements_perm in Hy.
    apply Heq; [left|by right].
Qed.

Lemma stable_sorted_unique (D : A → Prop) s1 s2 :
  (∀ x, comesBefore comparefn x x) →
  Forall D s1 → Forall D s2 →
  StronglySorted (comesBefore comparefn) s1 →
  StronglySorted (comesBefore comparefn) s2 →
  (∀ x, D x → filter (tied comparefn x) s1 = filter (tied comparefn x) s2) →
  s1 = s2.
Proof.
  intros Hrefl. revert s2.
  induction s1 as [|a s1 IH]; intros s2 HD1 HD2 Hs1 Hs2 Hstable.
  - destruct s2 as [|b s2]; [done|].
    apply Forall_cons in HD2 as [Hb _]. specialize (Hstable b Hb).
    rewrite filter_nil, filter_cons_True in Hstable by done. done.
  - apply Forall_cons in HD1 as [Ha HD1].
    apply StronglySorted_inv in Hs1 as [Hs1 Ha1].
    pose proof (Hstable a Ha) as Hhead.
    rewrite filter_cons_True in Hhead by done.
    destruct s2 as [|b s2]; [by rewrite filter_nil in Hhead|].
    apply Forall_cons in HD2 as [Hb HD2].
    apply StronglySorted_inv in Hs2 as [Hs2 Hb2].
    assert (Hab : a = b).
    { assert (Hba : comesBefore comparefn b a).
      { assert (Hin : a ∈ b :: s2).
        { eapply (proj1 (list_elem_of_filter (tied comparefn a) _ _)).
          rewrite <-Hhead. left. }
        apply elem_of_cons in Hin as [->|Hin]; [done|].
        rewrite Forall_forall in Hb2. by apply Hb2. }
      assert (Hab : comesBefore comparefn a b).
      { assert (Hin : b ∈ a :: s1).
        { eapply (proj1 (list_elem_of_filter (tied comparefn b) _ _)).
          rewrite (Hstable b Hb), filter_cons_True by done. left. }
        apply elem_of_cons in Hin as [->|Hin]; [done|].
        rewrite Forall_forall in Ha1. by apply Ha1. }
      rewrite filter_cons_True in Hhead by done. by injection Hhead. }
    subst b. f_equal. apply IH; try done.
    intros x Hx. specialize (Hstable x Hx). rewrite !filter_cons in Hstable.
    destruct (decide (tied comparefn x a)); [by injection Hstable|done].
Qed.

Lemma sortElements_unique (D : A → Prop) l s :
  (∀ x, comesBefore comparefn x x) →
  (∀ x y, D x → D y → comesBefore comparefn x y ∨ comesBefore comparefn y x) →
  (∀ x y z, D x → D y → D z →
     comesBefore comparefn x y → comesBefore comparefn y z →
     comesBefore comparefn x z) →
  Forall D l →
  s ≡ₚ l →
  StronglySorted (comesBefore comparefn) s →
  (∀ x, D x → filter (tied comparefn x) s = filter (tied comparefn x) l) →
  s = srt l.
Proof.
  intros Hrefl Htotal Htrans HD Hperm Hsorted Hstable.
  assert (HDl : ∀ x, x ∈ l → D x) by by apply Forall_forall.
  apply (stable_sorted_unique D); try done.
  - by rewrite Hperm.
  - by rewrite sortElements_perm.
  - apply (sortElements_sorted (comesBefore comparefn) D); try done.
    intros x y Hx Hy Hgt. destruct (Htotal x y Hx Hy) as [Hle|Hle]; [|done].
    unfold comesBefore in Hle. lia.
  - intros x Hx. rewrite (Hstable x Hx). symmetry.
    apply sortElements_filter_in. intros y z Hy Hz [Hxy Hyx] [Hxz Hzx].
    apply (Htrans y x z); auto.
Qed.

(** An array already in comparison order is left as it is. *)
Lemma sortElements_sorted_id l :
  Sorted (λ x y, (cmp x y ≤ 0)%Z) l → srt l = l.
Proof.
  induction 1 as [|x l Hs IH Hhd]; simpl; [done|].
  rewrite IH. destruct Hhd as [|y l Hxy]; simpl; [done|].
  by destruct (Z.leb_spec (cmp x y) 0); [|lia].
Qed.

(** The call returns its receiver. *)
Lemma Array_sort_alias arr :
  (Array_sort comparefn arr).2 = (Array_sort comparefn arr).1.
Proof. done. Qed.
End ArraySortFacts.

(** ** Chronological sort *)

Section Chronological.
Context {A : Type} (getTime : string → option Z) (date : A → string).

Local Abbreviation byDate := (byDateDesc getTime date).

Lemma byDate_valid a b :
  validDate getTime date a → validDate getTime date b →
  ∃ ta tb, getTime (date a) = Some ta ∧ getTime (date b) = Some tb
           ∧ compareElements byDate a b = (tb - ta)%Z.
Proof.
  intros [ta Ha] [tb Hb]. exists ta, tb.
  unfold compareElements, byDateDesc. by rewrite Ha, Hb.
Qed.

Lemma compare_byDate a b ta tb :
  getTime (date a) = Some ta → getTime (date b) = Some tb →
  compareElements byDate a b = (tb - ta)%Z.
Proof.
  intros Ha Hb. unfold compareElements, byDateDesc. by rewrite Ha, Hb.
Qed.

Lemma byDate_same_date a b :
  date a = date b → compareElements byDate a b = 0%Z.
Proof.
  intros Heq. unfold compareElements, byDateDesc. rewrite Heq.
  destruct (getTime (date b)); simpl; [lia|done].
Qed.

Lemma byDate_same_time a b t :
  getTime (date a) = Some t → getTime (date b) = Some t →
  compareElements byDate a b = 0%Z.
Proof.
  intros Ha Hb. unfold compareElements, byDateDesc. rewrite Ha, Hb.
  simpl. lia.
Qed.

Lemma chronological_perm l : sortElements byDate l ≡ₚ l.
Proof. apply sortElements_perm. Qed.

Lemma chronological_descending l :
  Forall (validDate getTime date) l →
  StronglySorted (notOlder getTime date) (sortElements byDate l).
Proof.
  apply sortElements_sorted.
  - intros x y Hx Hy. destruct (byDate_valid x y Hx Hy) as (tx&ty&Ex&Ey&->).
    unfold notOlder. rewrite Ex, Ey. lia.
  - intros x y Hx Hy. destruct (byDate_valid x y Hx Hy) as (tx&ty&Ex&Ey&->).
    unfold notOlder. rewrite Ex, Ey. lia.
  - intros x y z [tx Ex] [ty Ey] [tz Ez]. unfold notOlder.
    rewrite Ex, Ey, Ez. lia.
Qed.

(** With valid dates, records of one date keep their order. *)
Lemma chronological_stable l d :
  Forall (validDate getTime date) l →
  filter (λ x, date x = d) (sortElements byDate l)
  = filter (λ x, date x = d) l.
Proof.
  intros _. apply sortElements_filter. intros y z Hy Hz.
  rewrite byDate_same_date; [done|congruence].
Qed.

(** Records whose dates denote the same instant keep their order too. *)
Lemma chronological_stable_time l t :
  Forall (validDate getTime date) l →
  filter (λ x, getTime (date x) = Some t) (sortElements byDate l)
  = filter (λ x, getTime (date x) = Some t) l.
Proof.
  intros _. apply sortElements_filter. intros y z Hy Hz.
  by rewrite (byDate_same_time y z t).
Qed.

(** Whatever stable sort the engine runs, on valid dates it returns this
    arrangement. *)
Lemma chronological_unique l s :
  Forall (validDate getTime date) l →
  s ≡ₚ l →
  StronglySorted (comesBefore byDate) s →
  (∀ x, validDate getTime date x →
        filter (tied byDate x) s = filter (tied byDate x) l) →
  s = sortElements byDate l.
Proof.
  apply sortElements_unique.
  - intros x. unfold comesBefore. by rewrite byDate_same_date.
  - intros x y [tx Ex] [ty Ey]. unfold comesBefore.
    rewrite (compare_byDate x y tx ty), (compare_byDate y x ty tx) by done.
    lia.
  - intros x y z [tx Ex] [ty Ey] [tz Ez]. unfold comesBefore.
    rewrite (compare_byDate x y tx ty), (compare_byDate y z ty tz),
      (compare_byDate x z tx tz) by done.
    lia.
Qed.
End Chronological.

(** C5.  The chronological sort of the writing page and of the polyglot
    page rearranges the collection (nothing is lost or added).  When the
    dates of the records are valid, every record of the result is dated no
    earlier than the records after it (most recent first), and the sort is
    stable: for each date, the records bearing it are in the result in the
    order they had in the input. *)
Theorem chronological_sort_stable (getTime : string → option Z)
    (writing : list WritingPostDoc) (polyglot : list PolyglotPostDoc) :
  let w := (WritingPage.sortedPosts getTime writing).1 in
  let p := (PolyglotPage.sortedPosts getTime polyglot).1 in
  (w ≡ₚ writing
   ∧ (Forall (validDate getTime wp_date) writing →
      StronglySorted (notOlder getTime wp_date) w
      ∧ ∀ d, filter (λ x, wp_date x = d) w
             = filter (λ x, wp_date x = d) writing))
  ∧ (p ≡ₚ polyglot
     ∧ (Forall (validDate getTime pp_date) polyglot →
        StronglySorted (notOlder getTime pp_date) p
        ∧ ∀ d, filter (λ x, pp_date x = d) p
               = filter (λ x, pp_date x = d) polyglot)).
Proof.
  simpl. split; split_and!;
    auto using chronological_perm, chronological_descending,
      chronological_stable.
Qed.

Lemma chronological_sort_stable_witness :
  Forall (validDate Sample.getTime wp_date) [Sample.older; Sample.newer]
  ∧ StronglySorted (notOlder Sample.getTime wp_date)
      (WritingPage.sortedPosts Sample.getTime [Sample.older; Sample.newer]).1
  ∧ Forall (validDate Sample.getTime pp_date) Sample.notes
  ∧ StronglySorted (notOlder Sample.getTime pp_date)
      (PolyglotPage.sortedPosts Sample.getTime Sample.notes).1
  ∧ filter (λ x, pp_date x = "2026-02-01"%string)
      (PolyglotPage.sortedPosts Sample.getTime Sample.notes).1
    = [Sample.note "a" "2026-02-01" jp; Sample.note "b" "2026-02-01" en].
Proof.
  assert (Hw : Forall (validDate Sample.getTime wp_date)
                 [Sample.older; Sample.newer])
    by (repeat constructor; by eexists).
  assert (Hp : Forall (validDate Sample.getTime pp_date) Sample.notes)
    by (repeat constructor; by eexists).
  pose proof (chronological_sort_stable Sample.getTime
                [Sample.older; Sample.newer] Sample.notes) as [Tw Tp].
  split; [exact Hw|]. split; [exact (proj1 (proj2 Tw Hw))|].
  split; [exact Hp|]. split; [exact (proj1 (proj2 Tp Hp))|].
  exact (proj2 (proj2 Tp Hp) "2026-02-01"%string).
Defined.

(** The two sample posts come out newest first. *)
Example chronological_sample :
  (WritingPage.sortedPosts Sample.getTime [Sample.older; Sample.newer]).1
  = [Sample.newer; Sample.older].
Proof. by vm_compute. Qed.

(** ** Lists *)

Lemma filter_all {A} (P : A → Prop) `{∀ x, Decision (P x)} l :
  Forall P l → filter P l = l.
Proof.
  induction 1 as [|x l Hx _ IH]; [done|].
  rewrite filter_cons. destruct (decide (P x)); [|done]. by rewrite IH.
Qed.

Lemma filter_none {A} (P : A → Prop) `{∀ x, Decision (P x)} l :
  Forall (λ x, ¬ P x) l → filter P l = [].
Proof.
  induction 1 as [|x l Hx _ IH]; [done|].
  rewrite filter_cons. by destruct (decide (P x)).
Qed.

(** ** Order-field sort *)

Lemma compare_byOrder a b :
  compareElements byOrder a b =
    match pj_order a, pj_order b with
    | Some oa, Some ob => (oa - ob)%Z
    | Some _, None => (-1)%Z
    | None, Some _ => 1%Z
    | None, None => 0%Z
    end.
Proof.
  unfold compareElements, byOrder.
  by destruct (pj_order a), (pj_order b).
Qed.

Lemma byOrder_sorted l : StronglySorted orderBefore (sortElements byOrder l).
Proof.
  apply (sortElements_sorted byOrder orderBefore (λ _, True)).
  - intros x y _ _. rewrite compare_byOrder. unfold orderBefore.
    destruct (pj_order x), (pj_order y); lia.
  - intros x y _ _. rewrite compare_byOrder. unfold orderBefore.
    destruct (pj_order x), (pj_order y); lia.
  - intros x y z _ _ _. unfold orderBefore.
    destruct (pj_order x), (pj_order y), (pj_order z); lia.
  - by apply Forall_true.
Qed.

(** In a list arranged by [orderBefore], the projects with an [order] come
    first and the ones without follow. *)
Lemma orderBefore_split l :
  StronglySorted orderBefore l →
  l = filter hasOrder l ++ filter lacksOrder l.
Proof.
  induction 1 as [|x l Hs IH Hx]; [done|].
  rewrite !filter_cons.
  destruct (decide (hasOrder x)) as [Hh|Hh], (decide (lacksOrder x)) as [Hl|Hl].
  - destruct Hh as [o Ho]. unfold lacksOrder in Hl. congruence.
  - simpl. by rewrite <-IH.
  - assert (Hall : Forall lacksOrder l).
    { eapply Forall_impl; [exact Hx|]. intros y. unfold orderBefore, lacksOrder.
      rewrite Hl. by destruct (pj_order y). }
    assert (Hnone : filter hasOrder l = []).
    { apply filter_none. eapply Forall_impl; [exact Hall|].
      intros y Hy [o Ho]. unfold lacksOrder in Hy. congruence. }
    assert (Hsame : filter lacksOrder l = l) by by apply filter_all.
    by rewrite Hnone, Hsame.
  - exfalso. apply Hh. unfold hasOrder, lacksOrder in *.
    by destruct (pj_order x); [eexists|].
Qed.

Lemma byOrder_stable_lacking l :
  filter lacksOrder (sortElements byOrder l) = filter lacksOrder l.
Proof.
  apply sortElements_filter. intros y z Hy Hz. rewrite compare_byOrder.
  unfold lacksOrder in *. by rewrite Hy, Hz.
Qed.

(** Projects with the same [order] keep their order as well. *)
Lemma byOrder_stable_equal l o :
  filter (λ p, pj_order p = Some o) (sortElements byOrder l)
  = filter (λ p, pj_order p = Some o) l.
Proof.
  apply sortElements_filter. intros y z Hy Hz. rewrite compare_byOrder.
  rewrite Hy, Hz. lia.
Qed.

(** Whatever stable sort the engine runs, it returns this arrangement. *)
Lemma byOrder_unique l s :
  s ≡ₚ l →
  StronglySorted (comesBefore byOrder) s →
  (∀ x, filter (tied byOrder x) s = filter (tied byOrder x) l) →
  s = sortElements byOrder l.
Proof.
  intros Hperm Hsorted Hstable.
  apply (sortElements_unique byOrder (λ _, True)); auto.
  - intros x. unfold comesBefore. rewrite compare_byOrder.
    destruct (pj_order x); lia.
  - intros x y _ _. unfold comesBefore. rewrite !compare_byOrder.
    destruct (pj_order x), (pj_order y); lia.
  - intros x y z _ _ _. unfold comesBefore. rewrite !compare_byOrder.
    destruct (pj_order x), (pj_order y), (pj_order z); lia.
  - by apply Forall_true.
Qed.

(** C4.  The sort of the projects page rearranges the collection so that
    each project may stand before all that follow it: ascending [order],
    and a project with an [order] before one without.  The projects with
    an [order] thus come first and the ones without after them, the
    latter in the order they had in the input.  Three projects [A], [B],
    [C] with [order] 2, none and 1 are arranged as [C], [A], [B]. *)
Theorem order_sort_spec (projects : list ProjectDoc) :
  let sorted := (ProjectsPage.sortedProjects projects).1 in
  sorted ≡ₚ projects
  ∧ StronglySorted orderBefore sorted
  ∧ sorted = filter hasOrder sorted ++ filter lacksOrder projects
  ∧ filter lacksOrder sorted = filter lacksOrder projects
  ∧ (∀ A B C,
       pj_order A = Some 2%Z → pj_order B = None → pj_order C = Some 1%Z →
       projects = [A; B; C] → sorted = [C; A; B]).
Proof.
  unfold ProjectsPage.sortedProjects, Array_sort. cbn [fst]. split_and!.
  - apply sortElements_perm.
  - apply byOrder_sorted.
  - rewrite <-byOrder_stable_lacking. apply orderBefore_split, byOrder_sorted.
  - apply byOrder_stable_lacking.
  - intros A B C HA HB HC ->.
    change (sortElements byOrder [A; B; C])
      with (insertSorted byOrder A (insertSorted byOrder B [C])).
    rewrite (insertSorted_cons byOrder B C), compare_byOrder, HB, HC.
    change (1 <=? 0)%Z with false. cbv iota.
    change (insertSorted byOrder B []) with [B].
    rewrite (insertSorted_cons byOrder A C), compare_byOrder, HA, HC.
    change (2 - 1 <=? 0)%Z with false. cbv iota.
    by rewrite (insertSorted_cons byOrder A B), compare_byOrder, HA, HB.
Qed.

Lemma order_sort_spec_witness :
  (ProjectsPage.sortedProjects [Sample.A; Sample.B; Sample.C]).1
  = [Sample.C; Sample.A; Sample.B].
Proof.
  exact (proj2 (proj2 (proj2 (proj2
           (order_sort_spec [Sample.A; Sample.B; Sample.C]))))
         Sample.A Sample.B Sample.C eq_refl eq_refl eq_refl eq_refl).
Defined.

(** ** Language filter *)

(** Among the sublists whose elements all satisfy [P], [filter P l] is the
    largest. *)
Lemma sublist_filter_max {A} (P : A → Prop) `{∀ x, Decision (P x)} l' l :
  l' `sublist_of` l → Forall P l' → l' `sublist_of` filter P l.
Proof.
  induction 1 as [|x l1 l2 Hsub IH|x l1 l2 Hsub IH]; intros Hall.
  - constructor.
  - apply Forall_cons in Hall as [Hx Hall].
    rewrite filter_cons_True by done. constructor. by apply IH.
  - rewrite filter_cons. destruct (decide (P x)); [constructor|]; by apply IH.
Qed.

(** C6.  For every selector, and so for each of [all], [jp], [kr], [en],
    [es]: with [all] the filter gives the sorted collection itself;
    otherwise it gives the posts whose language code is the selector, in
    the order they have in the sorted collection: a sublist of it, all in
    that language, and containing every other such sublist.  Four posts in
    [jp], [en], [jp], [es] filtered with ["jp"] give the first and the
    third. *)
Theorem language_filter_spec (selectedLanguage : string)
    (sortedPosts : list PolyglotPostDoc) :
  let shown := (PolyglotPage.filteredPosts selectedLanguage sortedPosts).1 in
  let matching := λ post, code (pp_language post) = selectedLanguage in
  (selectedLanguage = "all"%string → shown = sortedPosts)
  ∧ (selectedLanguage ≠ "all"%string →
     shown `sublist_of` sortedPosts
     ∧ Forall matching shown
     ∧ (∀ post, post ∈ shown ↔ post ∈ sortedPosts ∧ matching post)
     ∧ (∀ others, others `sublist_of` sortedPosts → Forall matching others →
          others `sublist_of` shown))
  ∧ (∀ a b c d,
       pp_language a = jp → pp_language b = en →
       pp_language c = jp → pp_language d = es →
       sortedPosts = [a; b; c; d] → selectedLanguage = "jp"%string →
       shown = [a; c]).
Proof.
  unfold PolyglotPage.filteredPosts. split_and!.
  - intros ->. by rewrite decide_True.
  - intros Hne. rewrite decide_False by done. cbn [Array_filter fst].
    split_and!.
    + apply sublist_filter.
    + by apply Forall_forall; intros post [? _]%list_elem_of_filter.
    + intros post. rewrite list_elem_of_filter. by split; intros [? ?].
    + intros others. apply sublist_filter_max.
  - intros a b c d Ha Hb Hc Hd -> ->. rewrite decide_False by done.
    cbn [Array_filter fst]. rewrite !filter_cons, filter_nil, Ha, Hb, Hc, Hd.
    done.
Qed.

Lemma language_filter_spec_witness :
  (PolyglotPage.filteredPosts "all" Sample.notes).1 = Sample.notes
  ∧ (PolyglotPage.filteredPosts "jp" Sample.notes).1
    = [Sample.note "a" "2026-02-01" jp; Sample.note "c" "2026-01-15" jp]
  ∧ (PolyglotPage.filteredPosts "es" Sample.notes).1 `sublist_of` Sample.notes.
Proof.
  split; [|split].
  - exact (proj1 (language_filter_spec "all" Sample.notes) eq_refl).
  - exact (proj2 (proj2 (language_filter_spec "jp" Sample.notes))
             (Sample.note "a" "2026-02-01" jp) (Sample.note "b" "2026-02-01" en)
             (Sample.note "c" "2026-01-15" jp) (Sample.note "d" "2026-01-15" es)
             eq_refl eq_refl eq_refl eq_refl eq_refl eq_refl).
  - refine (proj1 (proj1 (proj2 (language_filter_spec "es" Sample.notes)) _)).
    discriminate.
Defined.

(** ** Language counts *)

Lemma orZero_Some n : orZero (Some n) = n.
Proof. simpl. by destruct (Z.eqb_spec n 0). Qed.

Lemma postsIn_cons k post posts :
  postsIn k (post :: posts)
  = (if decide (code (pp_language post) = k) then 1 else 0) + postsIn k posts.
Proof.
  unfold postsIn. rewrite filter_cons.
  by destruct (decide (code (pp_language post) = k)).
Qed.

(** Every post is counted under one of the four codes. *)
Lemma postsIn_total posts :
  postsIn "jp" posts + postsIn "kr" posts + postsIn "en" posts
  + postsIn "es" posts = length posts.
Proof.
  induction posts as [|post posts IH]; [done|].
  rewrite !postsIn_cons. cbn [length].
  destruct (pp_language post); cbn [code];
    repeat (case_decide; [try discriminate|try done]); lia.
Qed.

Lemma postsIn_code k posts :
  postsIn k posts ≠ 0 → ∃ l, k = code l ∧ Exists (λ post, pp_language post = l) posts.
Proof.
  induction posts as [|post posts IH]; [done|].
  rewrite postsIn_cons.
  destruct (decide (code (pp_language post) = k)) as [<-|Hne].
  - intros _. exists (pp_language post). split; [done|]. by left.
  - intros Hk. destruct (IH Hk) as (l&->&Hex). exists l. split; [done|].
    by right.
Qed.

(** The object the [reduce] has built from an accumulator [acc]. *)
Lemma languageCounts_fold (acc : gmap string Z) posts k :
  foldl (λ (acc : gmap string Z) post,
           <[code (pp_language post) :=
               (orZero (acc !! code (pp_language post)) + 1)%Z]> acc)
        acc posts !! k
  = match postsIn k posts with
    | O => acc !! k
    | S _ => Some (orZero (acc !! k) + Z.of_nat (postsIn k posts))%Z
    end.
Proof.
  revert acc. induction posts as [|post posts IH]; intros acc; [done|].
  cbn [foldl]. rewrite IH, postsIn_cons.
  destruct (decide (code (pp_language post) = k)) as [<-|Hne].
  - rewrite lookup_insert_eq, orZero_Some.
    destruct (postsIn _ posts) as [|n]; cbn [Nat.add]; f_equal; lia.
  - by rewrite lookup_insert_ne.
Qed.

Lemma languageCounts_lookup posts k :
  (PolyglotPage.languageCounts posts).1 !! k
  = match postsIn k posts with
    | O => None
    | S _ => Some (Z.of_nat (postsIn k posts))
    end.
Proof.
  unfold PolyglotPage.languageCounts, Array_reduce. cbn [fst].
  rewrite languageCounts_fold, lookup_empty.
  destruct (postsIn k posts); [done|]. by cbn [orZero].
Qed.

(** C2.  For every collection of polyglot posts, the empty one included,
    the object of counts has a key exactly for the codes that some post
    bears, mapped to the number of posts bearing it; a code without posts
    has no key.  Every key is one of [jp], [kr], [en], [es].  The number
    the page shows for a code, [languageCounts[code] || 0], is the number
    of posts bearing it, [0] when there is none, and the four numbers
    shown add up to the size of the collection. *)
Theorem language_counts_spec (posts : list PolyglotPostDoc) :
  let counts := (PolyglotPage.languageCounts posts).1 in
  (∀ k, counts !! k
        = if decide (postsIn k posts = 0) then None
          else Some (Z.of_nat (postsIn k posts)))
  ∧ (∀ k, is_Some (counts !! k) →
          ∃ l, k = code l ∧ Exists (λ post, pp_language post = l) posts)
  ∧ (∀ l, PolyglotPage.shownCount counts (code l)
          = Z.of_nat (postsIn (code l) posts))
  ∧ (PolyglotPage.shownCount counts "jp" + PolyglotPage.shownCount counts "kr"
     + PolyglotPage.shownCount counts "en" + PolyglotPage.shownCount counts "es"
     = Z.of_nat (length posts))%Z.
Proof.
  cbv zeta.
  assert (Hshown : ∀ k, PolyglotPage.shownCount
                          (PolyglotPage.languageCounts posts).1 k
                        = Z.of_nat (postsIn k posts)).
  { intros k. unfold PolyglotPage.shownCount. rewrite languageCounts_lookup.
    destruct (postsIn k posts) eqn:E; [done|]. by rewrite orZero_Some. }
  split_and!.
  - intros k. rewrite languageCounts_lookup.
    by destruct (postsIn k posts).
  - intros k. rewrite languageCounts_lookup.
    destruct (postsIn k posts) eqn:E; [by intros [? ?]|].
    intros _. apply postsIn_code. by rewrite E.
  - intros l. apply Hshown.
  - rewrite !Hshown, <-(postsIn_total posts). lia.
Qed.

(** From the empty collection the [reduce] returns its initial value, the
    empty object: no key is there, [jp] for one.  A collection with a
    post in one language has the key of that language alone. *)
Lemma language_counts_omit_keys :
  (PolyglotPage.languageCounts []).1 = ∅
  ∧ (PolyglotPage.languageCounts []).1 !! "jp"%string = None
  ∧ dom (PolyglotPage.languageCounts [Sample.note "a" "2026-02-01" jp]).1
    = {[ "jp"%string ]}.
Proof.
  split_and!; [done|done|].
  unfold PolyglotPage.languageCounts, Array_reduce. cbn [fst foldl].
  by rewrite dom_insert_L, dom_empty_L, (right_id_L ∅ (∪)).
Qed.

(** ** Lookup by slug *)

Section ArrayFindFacts.
Context {A : Type} (P : A → Prop) `{∀ x, Decision (P x)}.

Lemma Array_find_none l :
  (∀ x, x ∈ l → ¬ P x) → (Array_find P l).1 = None.
Proof.
  intros Hall. unfold Array_find. cbn [fst].
  by rewrite (proj2 (list_find_None P l)); [|apply Forall_forall].
Qed.

Lemma Array_find_first l i x :
  l !! i = Some x → P x →
  (∀ j y, j < i → l !! j = Some y → ¬ P y) →
  (Array_find P l).1 = Some x.
Proof.
  intros Hi Hx Hbefore. unfold Array_find. cbn [fst].
  rewrite (proj2 (list_find_Some P l i x)); [done|].
  split_and!; [done|done|]. intros j y Hj Hlt. by apply (Hbefore j).
Qed.

Lemma Array_find_some l x :
  x ∈ l → P x → ∃ y, (Array_find P l).1 = Some y ∧ y ∈ l ∧ P y.
Proof.
  intros Hin Hx. unfold Array_find. cbn [fst].
  destruct (list_find P l) as [[i y]|] eqn:E.
  - apply list_find_Some in E as (Hi&Hy&_). exists y.
    split_and!; [done| |done]. by eapply list_elem_of_lookup_2.
  - apply list_find_None in E. rewrite Forall_forall in E.
    by destruct (E x Hin).
Qed.
End ArrayFindFacts.

Lemma WritingPostPage_outcome getTime slug posts :
  (WritingPostPage getTime slug posts).1
  = match (Array_find (λ p, wp_slug p = slug) posts).1 with
    | None => NotFound
    | Some post =>
        match getTime (wp_date post) with
        | None => RangeError post
        | Some _ => Rendered post
        end
    end.
Proof. done. Qed.

Lemma PolyglotPostPage_outcome getTime slug posts :
  (PolyglotPostPage getTime slug posts).1
  = match (Array_find (λ p, pp_slug p = slug) posts).1 with
    | None => NotFound
    | Some post =>
        match getTime (pp_date post) with
        | None => RangeError post
        | Some _ => Rendered post
        end
    end.
Proof. done. Qed.

(** The page of a post whose date is invalid throws, though the post is
    found. *)
Example detail_page_invalid_date :
  (WritingPostPage Sample.getTime "draft" [Sample.post "draft" "soon" []]).1
  = RangeError (Sample.post "draft" "soon" []).
Proof. by vm_compute. Qed.

(** C7.  For every slug asked of a detail page: the page ends in the
    not-found state exactly when no post of the collection has the slug,
    and nothing is thrown then; when some post has the slug and the posts
    with that slug have valid dates, the page renders a post of the
    collection with that slug, namely the first one in the collection
    (the one, when slugs are unique).  This holds for the writing pages
    and for the polyglot pages. *)
Theorem detail_page_lookup (getTime : string → option Z) (slug : string)
    (allWritingPosts : list WritingPostDoc)
    (allPolyglotPosts : list PolyglotPostDoc) :
  ((∀ post, post ∈ allWritingPosts → wp_slug post ≠ slug)
   ↔ (WritingPostPage getTime slug allWritingPosts).1 = NotFound)
  ∧ (∀ post, post ∈ allWritingPosts → wp_slug post = slug →
       (∀ p, p ∈ allWritingPosts → wp_slug p = slug →
             validDate getTime wp_date p) →
       ∃ found,
         (WritingPostPage getTime slug allWritingPosts).1 = Rendered found
         ∧ found ∈ allWritingPosts ∧ wp_slug found = slug)
  ∧ (∀ i post, allWritingPosts !! i = Some post → wp_slug post = slug →
       validDate getTime wp_date post →
       (∀ j other, j < i → allWritingPosts !! j = Some other →
                   wp_slug other ≠ slug) →
       (WritingPostPage getTime slug allWritingPosts).1 = Rendered post)
  ∧ ((∀ post, post ∈ allPolyglotPosts → pp_slug post ≠ slug)
     ↔ (PolyglotPostPage getTime slug allPolyglotPosts).1 = NotFound)
  ∧ (∀ post, post ∈ allPolyglotPosts → pp_slug post = slug →
       (∀ p, p ∈ allPolyglotPosts → pp_slug p = slug →
             validDate getTime pp_date p) →
       ∃ found,
         (PolyglotPostPage getTime slug allPolyglotPosts).1 = Rendered found
         ∧ found ∈ allPolyglotPosts ∧ pp_slug found = slug)
  ∧ (∀ i post, allPolyglotPosts !! i = Some post → pp_slug post = slug →
       validDate getTime pp_date post →
       (∀ j other, j < i → allPolyglotPosts !! j = Some other →
                   pp_slug other ≠ slug) →
       (PolyglotPostPage getTime slug allPolyglotPosts).1 = Rendered post).
Proof.
  rewrite WritingPostPage_outcome, PolyglotPostPage_outcome. split_and!.
  - split.
    + intros Hnone. by rewrite Array_find_none.
    + intros Hpage post Hin Hslug.
      destruct (Array_find_some (λ p, wp_slug p = slug) _ post Hin Hslug)
        as (found&Hfound&_). rewrite Hfound in Hpage.
      by destruct (getTime (wp_date found)).
  - intros post Hin Hslug Hvalid.
    destruct (Array_find_some (λ p, wp_slug p = slug) _ post Hin Hslug)
      as (found&->&Hfound&Hfslug).
    destruct (Hvalid found Hfound Hfslug) as [t Ht]. unfold validDate in *.
    rewrite Ht. by exists found.
  - intros i post Hi Hslug [t Ht] Hfirst.
    rewrite (Array_find_first (λ p, wp_slug p = slug) _ i post) by done.
    by rewrite Ht.
  - split.
    + intros Hnone. by rewrite Array_find_none.
    + intros Hpage post Hin Hslug.
      destruct (Array_find_some (λ p, pp_slug p = slug) _ post Hin Hslug)
        as (found&Hfound&_). rewrite Hfound in Hpage.
      by destruct (getTime (pp_date found)).
  - intros post Hin Hslug Hvalid.
    destruct (Array_find_some (λ p, pp_slug p = slug) _ post Hin Hslug)
      as (found&->&Hfound&Hfslug).
    destruct (Hvalid found Hfound Hfslug) as [t Ht].
    rewrite Ht. by exists found.
  - intros i post Hi Hslug [t Ht] Hfirst.
    rewrite (Array_find_first (λ p, pp_slug p = slug) _ i post) by done.
    by rewrite Ht.
Qed.

Lemma detail_page_lookup_witness :
  (WritingPostPage Sample.getTime "third" [Sample.older; Sample.newer]).1
  = NotFound
  ∧ (∃ found,
       (WritingPostPage Sample.getTime "second" [Sample.older; Sample.newer]).1
       = Rendered found
       ∧ found ∈ [Sample.older; Sample.newer] ∧ wp_slug found = "second"%string)
  ∧ (WritingPostPage Sample.getTime "second" [Sample.older; Sample.newer]).1
    = Rendered Sample.newer
  ∧ (PolyglotPostPage Sample.getTime "zz" Sample.notes).1 = NotFound
  ∧ (∃ found,
       (PolyglotPostPage Sample.getTime "a" Sample.notes).1 = Rendered found
       ∧ found ∈ Sample.notes ∧ pp_slug found = "a"%string)
  ∧ (PolyglotPostPage Sample.getTime "a" Sample.notes).1
    = Rendered (Sample.note "a" "2026-02-01" jp).
Proof.
  split_and!.
  - refine (proj1 (proj1 (detail_page_lookup Sample.getTime "third"
                            [Sample.older; Sample.newer] [])) _).
    intros post Hin.
    repeat (apply elem_of_cons in Hin as [->|Hin]; [discriminate|]).
    by apply elem_of_nil in Hin.
  - refine (proj1 (proj2
              (detail_page_lookup Sample.getTime "second"
                 [Sample.older; Sample.newer] []))
              Sample.newer _ eq_refl _).
    + right. left.
    + intros p Hin _.
      repeat (apply elem_of_cons in Hin as [->|Hin];
              [eexists; reflexivity|]).
      by apply elem_of_nil in Hin.
  - refine (proj1 (proj2 (proj2
              (detail_page_lookup Sample.getTime "second"
                 [Sample.older; Sample.newer] [])))
              1 Sample.newer eq_refl eq_refl _ _).
    + eexists; reflexivity.
    + intros j other Hj Hother. destruct j as [|j]; [|lia].
      injection Hother as <-. discriminate.
  - refine (proj1 (proj1 (proj2 (proj2 (proj2
              (detail_page_lookup Sample.getTime "zz" [] Sample.notes))))) _).
    intros post Hin.
    repeat (apply elem_of_cons in Hin as [->|Hin]; [discriminate|]).
    by apply elem_of_nil in Hin.
  - refine (proj1 (proj2 (proj2 (proj2 (proj2
              (detail_page_lookup Sample.getTime "a" [] Sample.notes)))))
              (Sample.note "a" "2026-02-01" jp) _ eq_refl _).
    + left.
    + intros p Hin _.
      repeat (apply elem_of_cons in Hin as [->|Hin];
              [eexists; reflexivity|]).
      by apply elem_of_nil in Hin.
  - refine (proj2 (proj2 (proj2 (proj2 (proj2
              (detail_page_lookup Sample.getTime "a" [] Sample.notes)))))
              0 (Sample.note "a" "2026-02-01" jp) eq_refl eq_refl _ _).
    + eexists; reflexivity.
    + intros j other Hj. lia.
Defined.

(** ** Related-post link *)

Lemma elem_of_whenTruthy v element l :
  l ∈ ProjectCard.whenTruthy v element
  ↔ ∃ s, v = Some s ∧ s ≠ ""%string ∧ l = element s.
Proof.
  unfold ProjectCard.whenTruthy. destruct v as [s|].
  - destruct (decide (s = ""%string)) as [->|Hne].
    + rewrite elem_of_nil. split; [done|]. by intros (s&[= <-]&?&_).
    + rewrite list_elem_of_singleton. split.
      * intros ->. by exists s.
      * by intros (s'&[= <-]&_&->).
  - rewrite elem_of_nil. split; [done|]. by intros (s&?&_).
Qed.

(** C8.  The card shows the two related-post links exactly when
    [relatedPost] is a string that is not empty, and both point at
    ["/writing/" + relatedPost].  A project without [relatedPost] (or with
    the empty string) has neither link.  The card is given the slug only:
    a slug that no writing post has gets the links like any other. *)
Theorem related_post_link (props : ProjectCard.Props)
    (allWritingPosts : list WritingPostDoc) :
  ((ProjectCard.relatedPost props = None
    ∨ ProjectCard.relatedPost props = Some ""%string) →
   ∀ l, l ∈ ProjectCard.links props →
        ProjectCard.place l ≠ ProjectCard.RelatedPostButton
        ∧ ProjectCard.place l ≠ ProjectCard.RelatedPostLine)
  ∧ (∀ slug, ProjectCard.relatedPost props = Some slug → slug ≠ ""%string →
       ProjectCard.dangling allWritingPosts slug →
       ProjectCard.mkLink ProjectCard.RelatedPostButton ("/writing/" +:+ slug)
         ∈ ProjectCard.links props
       ∧ ProjectCard.mkLink ProjectCard.RelatedPostLine ("/writing/" +:+ slug)
         ∈ ProjectCard.links props).
Proof.
  unfold ProjectCard.links. split.
  - intros Hnone l. rewrite !elem_of_app, !elem_of_whenTruthy.
    intros [(s&_&_&->)|[(s&_&_&->)|[(s&Hs&Hne&->)|(s&Hs&Hne&->)]]];
      [done|done| |]; destruct Hnone as [Hn|Hn]; congruence.
  - intros slug Hslug Hne _. rewrite !elem_of_app, !elem_of_whenTruthy.
    split.
    + right; right; left. by exists slug.
    + right; right; right. by exists slug.
Qed.

Lemma related_post_link_witness :
  (∀ l, l ∈ ProjectCard.links (ProjectCard.propsOf 0 Sample.A) →
        ProjectCard.place l ≠ ProjectCard.RelatedPostButton
        ∧ ProjectCard.place l ≠ ProjectCard.RelatedPostLine)
  ∧ ProjectCard.mkLink ProjectCard.RelatedPostButton "/writing/ghost"
      ∈ ProjectCard.links (ProjectCard.propsOf 1 Sample.B).
Proof.
  split.
  - exact (proj1 (related_post_link (ProjectCard.propsOf 0 Sample.A) [])
             (or_introl eq_refl)).
  - refine (proj1 (proj2 (related_post_link (ProjectCard.propsOf 1 Sample.B)
                            [Sample.older; Sample.newer])
                     "ghost"%string eq_refl _ _)); [discriminate|].
    intros post Hin.
    repeat (apply elem_of_cons in Hin as [->|Hin]; [discriminate|]).
    by apply elem_of_nil in Hin.
Defined.

(** A project whose [relatedPost] names no writing post still gets both
    links, to a page that does not exist. *)
Lemma dangling_link_rendered :
  ProjectCard.dangling [Sample.older; Sample.newer] "ghost"
  ∧ ProjectCard.relatedPost (ProjectCard.propsOf 1 Sample.B) = Some "ghost"%string
  ∧ ProjectCard.links (ProjectCard.propsOf 1 Sample.B)
    = [ ProjectCard.mkLink ProjectCard.RelatedPostButton "/writing/ghost";
        ProjectCard.mkLink ProjectCard.RelatedPostLine "/writing/ghost" ].
Proof.
  split_and!; [|done|done].
  intros post Hin.
  repeat (apply elem_of_cons in Hin as [->|Hin]; [discriminate|]).
  by apply elem_of_nil in Hin.
Qed.

(** ** The receiver after a query *)







(** ** Materialization *)

Section MaterializerFacts.
Import Materializer.
Context (getTime : string → option Z).




Lemma hasType_checkValue f t v :
  checkValue getTime f t v = [] → hasType getTime t v.
Proof.
  revert v. induction t as [| | |options|elem IH]; intros [s|n|b|items];
    cbn [hasType checkValue]; try done.
  - destruct (getTime s) as [t|]; [by eexists|done].
  - by case_decide.
  - induction items as [|item items IHitems]; [by constructor|].
    cbn [fmap list_fmap concat]. intros [Hitem Hrest]%app_eq_nil.
    constructor; [by apply IH|by apply IHitems].
Qed.


End MaterializerFacts.



(** A project entry with every required field in order is materialized
    with the [status] its frontmatter gives, though that is none of the
    options of the field. *)
Example materialize_sample_project :
  ∃ record,
    Materializer.materialize Sample.getTime Project "projects/demo"
      Sample.projectFrontmatter "" = inr record
    ∧ Materializer.values record !! "status"%string
      = Some (Materializer.VString "done")
    ∧ Materializer.values record !! "slug"%string
      = Some (Materializer.VString "demo").
Proof. eexists. split_and!; by vm_compute. Qed.

(** A polyglot entry whose [language] is none of the four options is
    refused. *)
Example materialize_language_outside :
  Materializer.materialize Sample.getTime PolyglotPost "polyglot/bonjour"
    {[ "title"%string := Materializer.VString "Bonjour";
       "date"%string := Materializer.VString "2026-01-15";
       "description"%string := Materializer.VString "";
       "language"%string := Materializer.VString "fr" ]} ""
  = inl [Materializer.ValidationError "language" Materializer.NotAnOption].
Proof. by vm_compute. Qed.

(** * Further properties *)

(** ** Tag index *)

Lemma elem_of_concat {A} (ls : list (list A)) x :
  x ∈ concat ls ↔ ∃ l, l ∈ ls ∧ x ∈ l.
Proof.
  induction ls as [|l ls IH]; cbn [concat].
  - rewrite elem_of_nil. split; [done|]. by intros (l&?%elem_of_nil&_).
  - rewrite elem_of_app, IH. split.
    + intros [Hx|(l'&Hl'&Hx)]; [exists l; split; [left|done]|].
      exists l'. split; [by right|done].
    + intros (l'&[->|Hl']%elem_of_cons&Hx); [by left|]. right. by exists l'.
Qed.

Section FromSetFacts.
Context `{EqDecision B}.

Local Abbreviation addValue :=
  (λ (seen : list B) v, if decide (v ∈ seen) then seen else seen ++ [v]).

Lemma fromSet_fold_NoDup (seen values : list B) :
  NoDup seen → NoDup (foldl addValue seen values).
Proof.
  revert seen. induction values as [|v values IH]; intros seen Hseen; [done|].
  cbn [foldl]. apply IH. destruct (decide (v ∈ seen)); [done|].
  apply NoDup_app. split_and!; [done| |apply NoDup_singleton].
  intros x Hx ->%list_elem_of_singleton. done.
Qed.

Lemma fromSet_fold_elem (seen values : list B) x :
  x ∈ foldl addValue seen values ↔ x ∈ seen ∨ x ∈ values.
Proof.
  revert seen. induction values as [|v values IH]; intros seen; cbn [foldl].
  - rewrite elem_of_nil. tauto.
  - rewrite IH, elem_of_cons. destruct (decide (v ∈ seen)) as [Hv|Hv].
    + split; [tauto|]. intros [?|[->|?]]; tauto.
    + rewrite elem_of_app, list_elem_of_singleton. tauto.
Qed.

(** What is added to the values seen so far: the new values, in the
    order in which a fresh set would have taken them. *)
Lemma fromSet_fold (seen values : list B) :
  foldl addValue seen values
  = seen ++ filter (λ v, v ∉ seen) (Array_from_Set values).
Proof.
  unfold Array_from_Set. revert seen.
  induction values as [|v values IH] using rev_ind; intros seen.
  - cbn. by rewrite app_nil_r.
  - rewrite !foldl_snoc. cbn beta.
    destruct (decide (v ∈ foldl addValue seen values)) as [H1|H1],
             (decide (v ∈ foldl addValue [] values)) as [H2|H2];
      rewrite fromSet_fold_elem in H1, H2; rewrite (IH seen).
    + done.
    + rewrite filter_app, filter_cons_False, filter_nil, app_nil_r; [done|].
      intros Hnot. apply Hnot. destruct H1 as [?|?]; [done|tauto].
    + destruct H2 as [[]%elem_of_nil|?]. tauto.
    + rewrite filter_app, filter_cons_True, filter_nil, <-app_assoc;
        [done|tauto].
Qed.

Lemma fromSet_app (l1 l2 : list B) :
  Array_from_Set (l1 ++ l2)
  = Array_from_Set l1 ++ filter (λ v, v ∉ l1) (Array_from_Set l2).
Proof.
  unfold Array_from_Set at 1. rewrite foldl_app.
  fold (Array_from_Set l1). rewrite fromSet_fold. f_equal.
  apply list_filter_iff. intros v. unfold Array_from_Set.
  rewrite fromSet_fold_elem, elem_of_nil. tauto.
Qed.

Lemma fromSet_NoDup_id (l : list B) : NoDup l → Array_from_Set l = l.
Proof.
  induction l as [|v l IH] using rev_ind; [done|].
  intros [Hl [Hv _]]%NoDup_app. rewrite fromSet_app, IH by done.
  f_equal. cbn. rewrite decide_False by apply not_elem_of_nil.
  rewrite filter_cons_True, filter_nil; [done|].
  intros Hin. apply (Hv v Hin). left.
Qed.
End FromSetFacts.

(** X1.  The tag index of the writing page has every tag of every post,
    nothing else, and each tag once.  The tags come in the order of their
    first appearance: the tags of the first post first (as the post lists
    them, when it lists none twice), then the tags of the following posts
    that the first one does not have. *)
Theorem allTags_distinct_first_appearance (post : WritingPostDoc)
    (posts : list WritingPostDoc) :
  NoDup (WritingPage.allTags posts).1
  ∧ (∀ tag, tag ∈ (WritingPage.allTags posts).1
            ↔ ∃ p, p ∈ posts ∧ tag ∈ wp_tags p)
  ∧ (WritingPage.allTags []).1 = []
  ∧ (WritingPage.allTags (post :: posts)).1
    = Array_from_Set (wp_tags post)
      ++ filter (λ tag, tag ∉ wp_tags post) (WritingPage.allTags posts).1
  ∧ (NoDup (wp_tags post) → Array_from_Set (wp_tags post) = wp_tags post).
Proof.
  unfold WritingPage.allTags, Array_flatMap. cbn [fst]. split_and!.
  - apply fromSet_fold_NoDup, NoDup_nil_2.
  - intros tag. unfold Array_from_Set.
    rewrite fromSet_fold_elem, elem_of_nil, elem_of_concat. split.
    + intros [[]|(tags&Htags&Htag)].
      apply list_elem_of_fmap in Htags as (p&->&Hp). by exists p.
    + intros (p&Hp&Htag). right. exists (wp_tags p). split; [|done].
      apply list_elem_of_fmap. by exists p.
  - done.
  - cbn [fmap list_fmap concat]. apply fromSet_app.
  - apply fromSet_NoDup_id.
Qed.

Lemma allTags_distinct_first_appearance_witness :
  Array_from_Set (wp_tags Sample.older) = wp_tags Sample.older
  ∧ (WritingPage.allTags [Sample.older; Sample.newer]).1
    = ["react"; "js"; "python"]%string.
Proof.
  split.
  - refine (proj2 (proj2 (proj2 (proj2
              (allTags_distinct_first_appearance Sample.older [])))) _).
    repeat (apply NoDup_cons; split;
            [intros Hin; repeat (apply elem_of_cons in Hin as [Hin|Hin];
                                 [discriminate Hin|]);
             by apply elem_of_nil in Hin|]).
    apply NoDup_nil_2.
  - by vm_compute.
Defined.

(** ** Sorting, again and after filtering *)

Lemma StronglySorted_filter {A} (R : relation A) (P : A → Prop)
    `{∀ x, Decision (P x)} l :
  StronglySorted R l → StronglySorted R (filter P l).
Proof.
  induction 1 as [|x l Hs IH Hx]; [constructor|].
  rewrite filter_cons. destruct (decide (P x)); [|done].
  constructor; [done|]. apply Forall_forall. intros y [_ Hy]%list_elem_of_filter.
  rewrite Forall_forall in Hx. by apply Hx.
Qed.

Lemma Forall_filter_keep {A} (D P : A → Prop) `{∀ x, Decision (P x)} l :
  Forall D l → Forall D (filter P l).
Proof.
  rewrite !Forall_forall. intros HD x [_ Hx]%list_elem_of_filter. by apply HD.
Qed.

Lemma filter_comm {A} (P Q : A → Prop) `{∀ x, Decision (P x)}
    `{∀ x, Decision (Q x)} (l : list A) :
  filter P (filter Q l) = filter Q (filter P l).
Proof. rewrite !list_filter_filter. apply list_filter_iff. tauto. Qed.

Section ConsistentSort.
Context {A : Type} (comparefn : A → A → option Z) (D : A → Prop).

Local Abbreviation before := (comesBefore comparefn).
Local Abbreviation srt := (sortElements comparefn).

Hypothesis before_refl : ∀ x, before x x.
Hypothesis before_total : ∀ x y, D x → D y → before x y ∨ before y x.
Hypothesis before_trans :
  ∀ x y z, D x → D y → D z → before x y → before y z → before x z.

Lemma sortElements_before l : Forall D l → StronglySorted before (srt l).
Proof.
  apply (sortElements_sorted comparefn before D); try done.
  intros x y Hx Hy Hgt. destruct (before_total x y Hx Hy) as [Hle|Hle]; [|done].
  unfold comesBefore in Hle. lia.
Qed.

(** Sorting what is sorted changes nothing. *)
Lemma sortElements_idem l : Forall D l → srt (srt l) = srt l.
Proof.
  intros HD. apply sortElements_sorted_id.
  by apply StronglySorted_Sorted, sortElements_before.
Qed.

(** Filtering the sorted array, or sorting the filtered one. *)
Lemma sortElements_filter_commute (P : A → Prop) `{∀ x, Decision (P x)} l :
  Forall D l → filter P (srt l) = srt (filter P l).
Proof.
  intros HD. apply (sortElements_unique comparefn D); try done.
  - by apply Forall_filter_keep.
  - by rewrite sortElements_perm.
  - by apply StronglySorted_filter, sortElements_before.
  - intros x Hx.
    rewrite (filter_comm (tied comparefn x) P (srt l)),
      (filter_comm (tied comparefn x) P l).
    f_equal. apply sortElements_filter_in.
    intros y z Hy Hz [Hxy Hyx] [Hxz Hzx].
    rewrite Forall_forall in HD. apply (before_trans y x z); auto.
Qed.
End ConsistentSort.

Section ChronologicalMore.
Context {A : Type} (getTime : string → option Z) (date : A → string).

Local Abbreviation byDate := (byDateDesc getTime date).
Local Abbreviation valid := (validDate getTime date).

Lemma byDate_before_refl x : comesBefore byDate x x.
Proof. unfold comesBefore. by rewrite byDate_same_date. Qed.

Lemma byDate_before_total x y :
  valid x → valid y → comesBefore byDate x y ∨ comesBefore byDate y x.
Proof.
  intros [tx Ex] [ty Ey]. unfold comesBefore.
  rewrite (compare_byDate getTime date x y tx ty),
    (compare_byDate getTime date y x ty tx) by done.
  lia.
Qed.

Lemma byDate_before_trans x y z :
  valid x → valid y → valid z →
  comesBefore byDate x y → comesBefore byDate y z → comesBefore byDate x z.
Proof.
  intros [tx Ex] [ty Ey] [tz Ez]. unfold comesBefore.
  rewrite (compare_byDate getTime date x y tx ty),
    (compare_byDate getTime date y z ty tz),
    (compare_byDate getTime date x z tx tz) by done.
  lia.
Qed.

Lemma chronological_idem l :
  Forall valid l → sortElements byDate (sortElements byDate l) = sortElements byDate l.
Proof.
  apply (sortElements_idem byDate valid);
    [apply byDate_before_total|apply byDate_before_trans].
Qed.

Lemma chronological_filter_commute (P : A → Prop) `{∀ x, Decision (P x)} l :
  Forall valid l →
  filter P (sortElements byDate l) = sortElements byDate (filter P l).
Proof.
  apply (sortElements_filter_commute byDate valid);
    [apply byDate_before_refl|apply byDate_before_total
    |apply byDate_before_trans].
Qed.

(** The first [n] of the sorted array against the rest of it. *)
Lemma chronological_take_drop n l :
  let sorted := sortElements byDate l in
  length (take n sorted) = n `min` length l
  ∧ take n sorted ++ drop n sorted ≡ₚ l
  ∧ (length l ≤ n → take n sorted ≡ₚ l)
  ∧ (Forall valid l →
     ∀ a b, a ∈ take n sorted → b ∈ drop n sorted → notOlder getTime date a b)
  ∧ (take (S n) sorted = [] ↔ l = []).
Proof.
  cbv zeta. split_and!.
  - by rewrite length_take, sortElements_perm.
  - by rewrite take_drop, sortElements_perm.
  - intros Hle. rewrite take_ge; [apply sortElements_perm|].
    by rewrite sortElements_perm.
  - intros Hvalid a b Ha Hb.
    pose proof (chronological_descending getTime date l Hvalid) as Hs.
    rewrite <-(take_drop n (sortElements byDate l)) in Hs.
    apply StronglySorted_app in Hs as (Hs&_&_). by apply Hs.
  - split.
    + intros Hnil. apply Permutation_nil_r. rewrite <-(sortElements_perm byDate l).
      by destruct (sortElements byDate l).
    + by intros ->.
Qed.
End ChronologicalMore.

Lemma byOrder_before_refl x : comesBefore byOrder x x.
Proof. unfold comesBefore. rewrite compare_byOrder. destruct (pj_order x); lia. Qed.

Lemma byOrder_before_total x y :
  comesBefore byOrder x y ∨ comesBefore byOrder y x.
Proof.
  unfold comesBefore. rewrite !compare_byOrder.
  destruct (pj_order x), (pj_order y); lia.
Qed.

Lemma byOrder_before_trans x y z :
  comesBefore byOrder x y → comesBefore byOrder y z → comesBefore byOrder x z.
Proof.
  unfold comesBefore. rewrite !compare_byOrder.
  destruct (pj_order x), (pj_order y), (pj_order z); lia.
Qed.

Lemma byOrder_idem l :
  sortElements byOrder (sortElements byOrder l) = sortElements byOrder l.
Proof.
  apply (sortElements_idem byOrder (λ _, True)).
  - intros x y _ _. apply byOrder_before_total.
  - intros x y z _ _ _. apply byOrder_before_trans.
  - by apply Forall_true.
Qed.

(** X2.  The home page shows the first three posts of the sorted
    collection: as many teasers as there are posts, three at most; all the
    posts when there are no more than three; none, and then no section,
    exactly when there is no post.  With valid dates every teaser is dated
    no earlier than every post left out.  The same holds for the polyglot
    teasers. *)
Theorem recent_posts_newest (getTime : string → option Z)
    (writing : list WritingPostDoc) (polyglot : list PolyglotPostDoc) :
  (let recent := (Home.recentWritingPosts getTime writing).1 in
   let others := drop 3 (WritingPage.sortedPosts getTime writing).1 in
   length recent = 3 `min` length writing
   ∧ recent ++ others ≡ₚ writing
   ∧ (length writing ≤ 3 → recent ≡ₚ writing)
   ∧ (Forall (validDate getTime wp_date) writing →
      ∀ a b, a ∈ recent → b ∈ others → notOlder getTime wp_date a b)
   ∧ ((HomeView.recentWriting getTime writing).1 = None ↔ writing = []))
  ∧ (let recent := (Home.recentPolyglotPosts getTime polyglot).1 in
     let others := drop 3 (PolyglotPage.sortedPosts getTime polyglot).1 in
     length recent = 3 `min` length polyglot
     ∧ recent ++ others ≡ₚ polyglot
     ∧ (length polyglot ≤ 3 → recent ≡ₚ polyglot)
     ∧ (Forall (validDate getTime pp_date) polyglot →
        ∀ a b, a ∈ recent → b ∈ others → notOlder getTime pp_date a b)
     ∧ ((HomeView.recentPolyglot getTime polyglot).1 = None ↔ polyglot = [])).
Proof.
  split.
  - destruct (chronological_take_drop getTime wp_date 3 writing)
      as (Hlen&Hperm&Hall&Hnew&_).
    destruct (chronological_take_drop getTime wp_date 2 writing)
      as (_&_&_&_&Hnil).
    cbv zeta. split_and!; try done.
    unfold HomeView.recentWriting, Home.recentWritingPosts, Array_sort,
      Array_slice0. cbn [fst snd]. rewrite <-Hnil.
    destruct (take 3 _) as [|x r]; cbn [length].
    + by rewrite decide_False by lia.
    + by rewrite decide_True by lia.
  - destruct (chronological_take_drop getTime pp_date 3 polyglot)
      as (Hlen&Hperm&Hall&Hnew&_).
    destruct (chronological_take_drop getTime pp_date 2 polyglot)
      as (_&_&_&_&Hnil).
    cbv zeta. split_and!; try done.
    unfold HomeView.recentPolyglot, Home.recentPolyglotPosts, Array_sort,
      Array_slice0. cbn [fst snd]. rewrite <-Hnil.
    destruct (take 3 _) as [|x r]; cbn [length].
    + by rewrite decide_False by lia.
    + by rewrite decide_True by lia.
Qed.

Lemma recent_posts_newest_witness :
  (Home.recentWritingPosts Sample.getTime [Sample.older; Sample.newer]).1
    ≡ₚ [Sample.older; Sample.newer]
  ∧ (∀ a b,
       a ∈ (Home.recentPolyglotPosts Sample.getTime Sample.notes).1 →
       b ∈ drop 3 (PolyglotPage.sortedPosts Sample.getTime Sample.notes).1 →
       notOlder Sample.getTime pp_date a b).
Proof.
  pose proof (recent_posts_newest Sample.getTime
                [Sample.older; Sample.newer] Sample.notes) as [Tw Tp].
  split.
  - refine (proj1 (proj2 (proj2 Tw)) _). cbn. lia.
  - refine (proj1 (proj2 (proj2 (proj2 Tp))) _).
    repeat constructor; by eexists.
Defined.

(** X3.  The pages sort the shared collection in place, one after the
    other.  With valid dates a second sort finds the collection in order
    and leaves it so: the writing page lists the posts in the same order
    whether the home page was rendered before it or not, the teasers of
    the home page are the same before and after the writing page, and
    they are the first three cards of the writing page.  The projects
    page, rendered again, arranges the projects as before. *)
Theorem pages_share_sorted_array (getTime : string → option Z)
    (writing : list WritingPostDoc) (projects : list ProjectDoc) :
  (Forall (validDate getTime wp_date) writing →
   (WritingPage.sortedPosts getTime
      (Home.recentWritingPosts getTime writing).2).1
   = (WritingPage.sortedPosts getTime writing).1
   ∧ (Home.recentWritingPosts getTime
        (WritingPage.sortedPosts getTime writing).2).1
     = (Home.recentWritingPosts getTime writing).1)
  ∧ (Home.recentWritingPosts getTime writing).1
    = take 3 (WritingPage.sortedPosts getTime writing).1
  ∧ ProjectsPage.sortedProjects (ProjectsPage.sortedProjects projects).2
    = ProjectsPage.sortedProjects projects.
Proof.
  unfold WritingPage.sortedPosts, Home.recentWritingPosts,
    ProjectsPage.sortedProjects, Array_sort, Array_slice0. cbn [fst snd].
  split_and!; [|done|by rewrite byOrder_idem].
  intros Hvalid. by rewrite chronological_idem.
Qed.

Lemma pages_share_sorted_array_witness :
  (WritingPage.sortedPosts Sample.getTime
     (Home.recentWritingPosts Sample.getTime [Sample.older; Sample.newer]).2).1
  = (WritingPage.sortedPosts Sample.getTime [Sample.older; Sample.newer]).1.
Proof.
  refine (proj1 (proj1 (pages_share_sorted_array Sample.getTime
                          [Sample.older; Sample.newer] []) _)).
  repeat constructor; by eexists.
Defined.

(** X4.  With valid dates, filtering the sorted posts by a language, as
    the polyglot page does, gives the posts of that language in sorted
    order: the same list as sorting the filtered collection. *)
Theorem filter_after_sort (getTime : string → option Z)
    (selectedLanguage : string) (posts : list PolyglotPostDoc) :
  Forall (validDate getTime pp_date) posts →
  (PolyglotPage.filteredPosts selectedLanguage
     (PolyglotPage.sortedPosts getTime posts).1).1
  = (PolyglotPage.sortedPosts getTime
       (PolyglotPage.filteredPosts selectedLanguage posts).1).1.
Proof.
  intros Hvalid. unfold PolyglotPage.filteredPosts, PolyglotPage.sortedPosts,
    Array_sort, Array_filter.
  destruct (decide (selectedLanguage = "all"%string)); cbn [fst]; [done|].
  by apply chronological_filter_commute.
Qed.

Lemma filter_after_sort_witness :
  (PolyglotPage.filteredPosts "jp"
     (PolyglotPage.sortedPosts Sample.getTime Sample.notes).1).1
  = (PolyglotPage.sortedPosts Sample.getTime
       (PolyglotPage.filteredPosts "jp" Sample.notes).1).1.
Proof.
  apply (filter_after_sort Sample.getTime "jp" Sample.notes).
  repeat constructor; by eexists.
Defined.

(** ** Counts and filter *)

Lemma shownCount_postsIn posts k :
  PolyglotPage.shownCount (PolyglotPage.languageCounts posts).1 k
  = Z.of_nat (postsIn k posts).
Proof.
  unfold PolyglotPage.shownCount. rewrite languageCounts_lookup.
  destruct (postsIn k posts) eqn:E; [done|]. by rewrite orZero_Some.
Qed.

Lemma code_not_all l : code l ≠ "all"%string.
Proof. by destruct l. Qed.

Lemma postsIn_perm k posts posts' :
  posts ≡ₚ posts' → postsIn k posts = postsIn k posts'.
Proof. intros Hperm. unfold postsIn. by rewrite Hperm. Qed.

(** X5.  The number of posts the polyglot page lists under a language is
    the number its statistics tile shows for that language; under [all]
    every post is listed; and the lists of the four languages together
    have as many posts as the collection. *)
Theorem shown_count_matches_filter (posts : list PolyglotPostDoc) :
  (∀ l, Z.of_nat (length (PolyglotPage.filteredPosts (code l) posts).1)
        = PolyglotPage.shownCount (PolyglotPage.languageCounts posts).1 (code l))
  ∧ (PolyglotPage.filteredPosts "all" posts).1 = posts
  ∧ length (PolyglotPage.filteredPosts "jp" posts).1
    + length (PolyglotPage.filteredPosts "kr" posts).1
    + length (PolyglotPage.filteredPosts "en" posts).1
    + length (PolyglotPage.filteredPosts "es" posts).1
    = length posts.
Proof.
  split_and!.
  - intros l. rewrite shownCount_postsIn. unfold PolyglotPage.filteredPosts.
    by rewrite decide_False by apply code_not_all.
  - done.
  - apply postsIn_total.
Qed.

(** X6.  The language counts do not depend on the order of the posts:
    two arrangements of a collection give the same object, and so
    counting after the sort, as the page does, gives what counting the
    collection as loaded would. *)
Theorem language_counts_order_independent (getTime : string → option Z)
    (posts posts' : list PolyglotPostDoc) :
  (posts ≡ₚ posts' →
   (PolyglotPage.languageCounts posts).1 = (PolyglotPage.languageCounts posts').1)
  ∧ (PolyglotPage.languageCounts (PolyglotPage.sortedPosts getTime posts).1).1
    = (PolyglotPage.languageCounts posts).1.
Proof.
  assert (Hperm : ∀ l1 l2 : list PolyglotPostDoc, l1 ≡ₚ l2 →
            (PolyglotPage.languageCounts l1).1 = (PolyglotPage.languageCounts l2).1).
  { intros l1 l2 H12. apply map_eq. intros k.
    by rewrite !languageCounts_lookup, (postsIn_perm k l1 l2). }
  split; [apply Hperm|]. apply Hperm, sortElements_perm.
Qed.

Lemma language_counts_order_independent_witness :
  (PolyglotPage.languageCounts
     [Sample.note "a" "2026-02-01" jp; Sample.note "b" "2026-02-01" en]).1
  = (PolyglotPage.languageCounts
       [Sample.note "b" "2026-02-01" en; Sample.note "a" "2026-02-01" jp]).1.
Proof.
  refine (proj1 (language_counts_order_independent Sample.getTime _ _) _).
  apply Permutation_swap.
Defined.

(** ** Detail routes *)

Lemma Array_find_inv {A} (P : A → Prop) `{∀ x, Decision (P x)} l y :
  (Array_find P l).1 = Some y →
  ∃ i, l !! i = Some y ∧ P y ∧ ∀ j z, l !! j = Some z → j < i → ¬ P z.
Proof.
  unfold Array_find. cbn [fst].
  destruct (list_find P l) as [[i x]|] eqn:E; [|done].
  cbn. intros [= ->]. exists i. by apply (list_find_Some P l i y).
Qed.

(** X7.  [generateStaticParams] lists exactly the slugs for which a
    detail page finds a post: a pre-built page never ends in the not-found
    state, and every other slug does.  When the dates of the collection
    are valid, these are exactly the slugs for which a post is rendered.
    There is one parameter object for each post of the collection. *)
Theorem static_params_render (getTime : string → option Z) (slug : string)
    (allWritingPosts : list WritingPostDoc)
    (allPolyglotPosts : list PolyglotPostDoc) :
  ({| param_slug := slug |} ∈ (WritingRoute.generateStaticParams allWritingPosts).1
   ↔ (WritingPostPage getTime slug allWritingPosts).1 ≠ NotFound)
  ∧ (Forall (validDate getTime wp_date) allWritingPosts →
     ({| param_slug := slug |}
        ∈ (WritingRoute.generateStaticParams allWritingPosts).1
      ↔ ∃ post, (WritingPostPage getTime slug allWritingPosts).1 = Rendered post))
  ∧ length (WritingRoute.generateStaticParams allWritingPosts).1
    = length allWritingPosts
  ∧ ({| param_slug := slug |}
       ∈ (PolyglotRoute.generateStaticParams allPolyglotPosts).1
     ↔ (PolyglotPostPage getTime slug allPolyglotPosts).1 ≠ NotFound)
  ∧ (Forall (validDate getTime pp_date) allPolyglotPosts →
     ({| param_slug := slug |}
        ∈ (PolyglotRoute.generateStaticParams allPolyglotPosts).1
      ↔ ∃ post,
          (PolyglotPostPage getTime slug allPolyglotPosts).1 = Rendered post))
  ∧ length (PolyglotRoute.generateStaticParams allPolyglotPosts).1
    = length allPolyglotPosts.
Proof.
  rewrite WritingPostPage_outcome, PolyglotPostPage_outcome.
  unfold WritingRoute.generateStaticParams, PolyglotRoute.generateStaticParams,
    Array_map. cbn [fst]. rewrite !length_fmap.
  assert (Hw : {| param_slug := slug |}
                 ∈ (λ post, {| param_slug := wp_slug post |}) <$> allWritingPosts
               ↔ ∃ found,
                   (Array_find (λ p, wp_slug p = slug) allWritingPosts).1
                   = Some found ∧ found ∈ allWritingPosts).
  { rewrite list_elem_of_fmap. split.
    - intros (p&[= ->]&Hp).
      destruct (Array_find_some (λ q, wp_slug q = wp_slug p) _ p Hp eq_refl)
        as (found&?&?&_). by exists found.
    - intros (found&E&Hin).
      apply Array_find_inv in E as (i&Hi&<-&_). by exists found. }
  assert (Hp : {| param_slug := slug |}
                 ∈ (λ post, {| param_slug := pp_slug post |}) <$> allPolyglotPosts
               ↔ ∃ found,
                   (Array_find (λ p, pp_slug p = slug) allPolyglotPosts).1
                   = Some found ∧ found ∈ allPolyglotPosts).
  { rewrite list_elem_of_fmap. split.
    - intros (p&[= ->]&Hp).
      destruct (Array_find_some (λ q, pp_slug q = pp_slug p) _ p Hp eq_refl)
        as (found&?&?&_). by exists found.
    - intros (found&E&Hin).
      apply Array_find_inv in E as (i&Hi&<-&_). by exists found. }
  split_and!; try done.
  - rewrite Hw. split.
    + intros (found&->&_). by destruct (getTime (wp_date found)).
    + destruct (Array_find (λ p, wp_slug p = slug) allWritingPosts).1 as [found|] eqn:E; [|done].
      intros _. exists found. split; [done|].
      apply Array_find_inv in E as (i&Hi&_). by eapply list_elem_of_lookup_2.
  - intros Hvalid. rewrite Hw. split.
    + intros (found&->&Hin).
      rewrite Forall_forall in Hvalid. destruct (Hvalid found Hin) as [t Ht].
      rewrite Ht. by exists found.
    + destruct (Array_find (λ p, wp_slug p = slug) allWritingPosts).1 as [found|] eqn:E; [|by intros [? ?]].
      intros _. exists found. split; [done|].
      apply Array_find_inv in E as (i&Hi&_). by eapply list_elem_of_lookup_2.
  - rewrite Hp. split.
    + intros (found&->&_). by destruct (getTime (pp_date found)).
    + destruct (Array_find (λ p, pp_slug p = slug) allPolyglotPosts).1 as [found|] eqn:E; [|done].
      intros _. exists found. split; [done|].
      apply Array_find_inv in E as (i&Hi&_). by eapply list_elem_of_lookup_2.
  - intros Hvalid. rewrite Hp. split.
    + intros (found&->&Hin).
      rewrite Forall_forall in Hvalid. destruct (Hvalid found Hin) as [t Ht].
      rewrite Ht. by exists found.
    + destruct (Array_find (λ p, pp_slug p = slug) allPolyglotPosts).1 as [found|] eqn:E; [|by intros [? ?]].
      intros _. exists found. split; [done|].
      apply Array_find_inv in E as (i&Hi&_). by eapply list_elem_of_lookup_2.
Qed.

Lemma languageDisplay_code l :
  ∃ display,
    PolyglotRoute.languageDisplay !! code l = Some display
    ∧ PolyglotRoute.flag display ≠ ""%string.
Proof. destruct l; eexists; (split; [by vm_compute|discriminate]). Qed.

(** X8.  The metadata of a detail route and its page agree, for they look
    the slug up alike.  When the page ends in the not-found state the
    metadata is the title "Post Not Found" and nothing else; when the page
    finds a post (and renders it, or throws on its date), the title, the
    description and the publication time of the metadata are those of
    that very post.  The title of a polyglot post is followed by a space
    and the flag of its language, which the table of the page has for each
    of the four languages. *)
Theorem metadata_matches_page (getTime : string → option Z) (slug : string)
    (allWritingPosts : list WritingPostDoc)
    (allPolyglotPosts : list PolyglotPostDoc) :
  match (WritingPostPage getTime slug allWritingPosts).1 with
  | NotFound =>
      (WritingRoute.generateMetadata slug allWritingPosts).1
      = {| md_title := "Post Not Found"; md_description := None;
           md_openGraph := None |}
  | Rendered post | RangeError post =>
      (WritingRoute.generateMetadata slug allWritingPosts).1
      = {| md_title := wp_title post;
           md_description := Some (wp_description post);
           md_openGraph :=
             Some {| og_title := wp_title post;
                     og_description := wp_description post;
                     og_type := "article";
                     og_publishedTime := wp_date post;
                     og_tags := Some (wp_tags post) |} |}
  end
  ∧ match (PolyglotPostPage getTime slug allPolyglotPosts).1 with
    | NotFound =>
        (PolyglotRoute.generateMetadata slug allPolyglotPosts).1
        = {| md_title := "Post Not Found"; md_description := None;
             md_openGraph := None |}
    | Rendered post | RangeError post =>
        ∃ display,
          PolyglotRoute.languageDisplay !! code (pp_language post) = Some display
          ∧ PolyglotRoute.flag display ≠ ""%string
          ∧ (PolyglotRoute.generateMetadata slug allPolyglotPosts).1
            = {| md_title :=
                   pp_title post +:+ " " +:+ PolyglotRoute.flag display;
                 md_description := Some (pp_description post);
                 md_openGraph :=
                   Some {| og_title := pp_title post;
                           og_description := pp_description post;
                           og_type := "article";
                           og_publishedTime := pp_date post;
                           og_tags := None |} |}
    end.
Proof.
  rewrite WritingPostPage_outcome, PolyglotPostPage_outcome.
  unfold WritingRoute.generateMetadata, PolyglotRoute.generateMetadata.
  split.
  - destruct (Array_find (λ p, wp_slug p = slug) allWritingPosts)
      as [[post|] ?]; cbn [fst]; [|done].
    by destruct (getTime (wp_date post)).
  - destruct (Array_find (λ p, pp_slug p = slug) allPolyglotPosts)
      as [[post|] ?]; cbn [fst]; [|done].
    destruct (languageDisplay_code (pp_language post)) as (display&Hd&Hflag).
    destruct (getTime (pp_date post)); exists display; by rewrite Hd.
Qed.

(** X9.  When no two posts of the collection share a slug, every post
    with a valid date has its own page: asked for the slug of the post,
    the detail page renders that post.  When two different posts share a
    slug, the one that comes later in the collection is out of reach: no
    slug makes the page render it. *)
Theorem every_post_has_its_page (getTime : string → option Z)
    (allWritingPosts : list WritingPostDoc) :
  (NoDup (wp_slug <$> allWritingPosts) →
   ∀ post, post ∈ allWritingPosts → validDate getTime wp_date post →
     (WritingPostPage getTime (wp_slug post) allWritingPosts).1 = Rendered post)
  ∧ (∀ i earlier later,
       allWritingPosts !! i = Some earlier →
       wp_slug earlier = wp_slug later →
       (∀ k, allWritingPosts !! k = Some later → i < k) →
       ∀ slug,
         (WritingPostPage getTime slug allWritingPosts).1 ≠ Rendered later).
Proof.
  split.
  - intros Hnodup post Hin [t Ht]. rewrite WritingPostPage_outcome.
    apply list_elem_of_lookup in Hin as [i Hi].
    rewrite (Array_find_first (λ p, wp_slug p = wp_slug post) _ i post);
      [by rewrite Ht|done|done|].
    intros j other Hj Hother Hslug.
    assert (i = j); [|lia].
    apply (NoDup_lookup (wp_slug <$> allWritingPosts) i j (wp_slug post));
      [done| |]; rewrite list_lookup_fmap; [by rewrite Hi|].
    rewrite Hother. cbn. by rewrite Hslug.
  - intros i earlier later Hi Hslug Hafter slug. rewrite WritingPostPage_outcome.
    destruct (Array_find _ _).1 as [found|] eqn:E; [|done].
    destruct (getTime (wp_date found)); [|done].
    intros [= ->]. apply Array_find_inv in E as (k&Hk&Hfound&Hfirst).
    apply (Hfirst i earlier Hi); [by apply Hafter|congruence].
Qed.

Lemma every_post_has_its_page_witness :
  (WritingPostPage Sample.getTime "second" [Sample.older; Sample.newer]).1
  = Rendered Sample.newer
  ∧ (∀ slug,
       (WritingPostPage Sample.getTime slug
          [Sample.post "same" "2026-01-15" []; Sample.post "same" "2026-02-01" []]).1
       ≠ Rendered (Sample.post "same" "2026-02-01" [])).
Proof.
  split.
  - refine (proj1 (every_post_has_its_page Sample.getTime
                     [Sample.older; Sample.newer]) _
              Sample.newer _ _); [|right; left|eexists; reflexivity].
    repeat (apply NoDup_cons; split;
            [intros Hin; repeat (apply elem_of_cons in Hin as [Hin|Hin];
                                 [discriminate Hin|]);
             by apply elem_of_nil in Hin|]).
    apply NoDup_nil_2.
  - refine (proj2 (every_post_has_its_page Sample.getTime
                     [Sample.post "same" "2026-01-15" [];
                      Sample.post "same" "2026-02-01" []]) 0
              (Sample.post "same" "2026-01-15" [])
              (Sample.post "same" "2026-02-01" []) eq_refl eq_refl _).
    intros [|k] Hk; [discriminate Hk|lia].
Defined.

(** ** Paths without the directory segment *)

(** X10.  A path in which the directory segment does not occur is its own
    slug: the derivation returns it as it is, and nothing fails.  When the
    segment occurs, the slug is the path less one occurrence of it,
    shorter by the length of the segment. *)
Theorem slug_of_any_path (ns path : string) :
  (JsString.includes ns path = false → stripNamespace ns path = path)
  ∧ (JsString.includes ns path = true →
     String.length (stripNamespace ns path) + String.length ns
     = String.length path).
Proof.
  unfold stripNamespace. split.
  - apply replace_absent.
  - apply replace_present_length.
Qed.

Lemma slug_of_any_path_witness :
  stripNamespace "writing/" "writing" = "writing"%string
  ∧ String.length (stripNamespace "writing/" "notes/writing/a")
    + String.length "writing/"
    = String.length "notes/writing/a".
Proof.
  split.
  - exact (proj1 (slug_of_any_path "writing/" "writing") eq_refl).
  - exact (proj2 (slug_of_any_path "writing/" "notes/writing/a") eq_refl).
Defined.

(** ** Navigation *)

Lemma startsWith_inv pat s :
  JsString.startsWith pat s = true →
  s = pat +:+ JsString.slice_from (String.length pat) s.
Proof.
  revert s. induction pat as [|a pat IH]; intros s; cbn.
  - by destruct s.
  - destruct s as [|b s]; [done|].
    destruct (Ascii.eqb_spec a b) as [->|]; [|done].
    intros H. cbn. by rewrite (IH s H) at 1.
Qed.

Lemma isActiveLink_root pathname :
  Header.isActiveLink pathname "/" = true → pathname = "/"%string.
Proof.
  unfold Header.isActiveLink. rewrite decide_True by done.
  by intros ?%bool_decide_eq_true.
Qed.

Lemma isActiveLink_section pathname href :
  href ≠ "/"%string →
  Header.isActiveLink pathname href = true →
  ∃ rest, pathname = href +:+ rest.
Proof.
  intros Hne. unfold Header.isActiveLink. rewrite decide_False by done.
  intros H%startsWith_inv. by eexists.
Qed.

(** X11.  For every pathname at most one link of the navigation is drawn
    as active.  The Home link is active on ["/"] alone.  On the address of
    a writing post, ["/writing/" + slug], the active link is Writing, and
    on the address of a polyglot post it is Polyglot. *)
Theorem one_active_link (pathname slug : string) :
  (∀ a b, a ∈ Header.navigationItems → b ∈ Header.navigationItems →
     Header.isActiveLink pathname (Header.href a) = true →
     Header.isActiveLink pathname (Header.href b) = true →
     a = b)
  ∧ (Header.isActiveLink pathname "/" = true ↔ pathname = "/"%string)
  ∧ filter (λ item, Header.isActiveLink ("/writing/" +:+ slug)
                      (Header.href item) = true) Header.navigationItems
    = [ {| Header.label := "Writing"; Header.href := "/writing" |} ]
  ∧ filter (λ item, Header.isActiveLink ("/polyglot/" +:+ slug)
                      (Header.href item) = true) Header.navigationItems
    = [ {| Header.label := "Polyglot"; Header.href := "/polyglot" |} ].
Proof.
  split_and!.
  - intros a b Ha Hb Hact Hbct. unfold Header.navigationItems in Ha, Hb.
    repeat (apply elem_of_cons in Ha as [->|Ha]);
      try (by apply elem_of_nil in Ha);
      repeat (apply elem_of_cons in Hb as [->|Hb]);
      try (by apply elem_of_nil in Hb);
      try reflexivity; exfalso; cbn [Header.href] in Hact, Hbct;
      try (apply isActiveLink_root in Hact as ->; by vm_compute in Hbct);
      try (apply isActiveLink_root in Hbct as ->; by vm_compute in Hact);
      apply isActiveLink_section in Hact as [ra ->]; try discriminate;
      apply isActiveLink_section in Hbct as [rb Heq]; try discriminate;
      cbn in Heq; congruence.
  - split; [apply isActiveLink_root|]. by intros ->.
  - done.
  - done.
Qed.

Lemma one_active_link_witness :
  {| Header.label := "Writing"; Header.href := "/writing" |}
  = {| Header.label := "Writing"; Header.href := "/writing" |}
  ∧ ¬ ({| Header.label := "Writing"; Header.href := "/writing" |}
         ∈ Header.navigationItems
       ∧ Header.isActiveLink "/writing/my-post" "/projects" = true).
Proof.
  split.
  - refine (proj1 (one_active_link "/writing/my-post" "my-post")
              {| Header.label := "Writing"; Header.href := "/writing" |}
              {| Header.label := "Writing"; Header.href := "/writing" |}
              _ _ eq_refl eq_refl);
      unfold Header.navigationItems; do 3 right; left.
  - intros [_ H]. discriminate H.
Defined.

(** ** The language filter and the polyglot page *)

Lemma buttons_onClick selectedLanguage button :
  button ∈ LanguageFilter.buttons selectedLanguage →
  LanguageFilter.onClick button ∈ ["all"; "en"; "jp"; "kr"; "es"]%string.
Proof.
  unfold LanguageFilter.buttons, LanguageFilter.languages. cbn [fmap list_fmap].
  intros Hin.
  repeat (apply elem_of_cons in Hin as [->|Hin]; [cbn; set_solver|]).
  by apply elem_of_nil in Hin.
Qed.

Lemma reachable_codes s :
  PolyglotView.reachable s → s ∈ ["all"; "en"; "jp"; "kr"; "es"]%string.
Proof.
  induction 1 as [|s button _ _ Hin]; [left|]. by eapply buttons_onClick.
Qed.

Lemma filteredPosts_elem s post (posts : list PolyglotPostDoc) :
  post ∈ (PolyglotPage.filteredPosts s posts).1
  ↔ post ∈ posts ∧ (s = "all"%string ∨ s = code (pp_language post)).
Proof.
  unfold PolyglotPage.filteredPosts, Array_filter.
  destruct (decide (s = "all"%string)) as [->|Hne]; cbn [fst].
  - tauto.
  - rewrite list_elem_of_filter. split; [intros [<- ?]; tauto|].
    intros [? [?| ->]]; done.
Qed.

(** X12.  The selected language of the polyglot page is always one of the
    five codes of the filter, [all] at first; in each such state exactly
    one button of the filter is drawn as selected; and every language of
    the schema can be selected.  Whatever is selected, a post of the
    collection is listed exactly when the selection is [all] or the code
    of its own language, and the filter has a button for that code. *)
Theorem language_filter_states (selectedLanguage : string)
    (posts : list PolyglotPostDoc) :
  (PolyglotView.reachable selectedLanguage →
   selectedLanguage ∈ ["all"; "en"; "jp"; "kr"; "es"]%string
   ∧ length (filter (λ b, LanguageFilter.isSelected b = true)
               (LanguageFilter.buttons selectedLanguage)) = 1)
  ∧ PolyglotView.reachable "all"
  ∧ (∀ l, PolyglotView.reachable (code l))
  ∧ (∀ post, post ∈ posts →
       (post ∈ (PolyglotPage.filteredPosts selectedLanguage posts).1
        ↔ selectedLanguage = "all"%string
          ∨ selectedLanguage = code (pp_language post))
       ∧ ∃ button, button ∈ LanguageFilter.buttons selectedLanguage
                   ∧ LanguageFilter.onClick button = code (pp_language post)).
Proof.
  split_and!.
  - intros Hreach. pose proof (reachable_codes _ Hreach) as Hin.
    split; [done|].
    repeat (apply elem_of_cons in Hin as [->|Hin]; [by vm_compute|]).
    by apply elem_of_nil in Hin.
  - constructor.
  - intros l.
    assert (Hb : {| LanguageFilter.onClick := code l;
                    LanguageFilter.isSelected := false |}
                 ∈ LanguageFilter.buttons "all").
    { unfold LanguageFilter.buttons, LanguageFilter.languages.
      cbn [fmap list_fmap]. destruct l; cbn; set_solver. }
    exact (PolyglotView.reachable_click "all" _ PolyglotView.reachable_initial Hb).
  - intros post Hpost. split.
    + rewrite filteredPosts_elem. tauto.
    + exists {| LanguageFilter.onClick := code (pp_language post);
                LanguageFilter.isSelected :=
                  bool_decide (selectedLanguage = code (pp_language post)) |}.
      split; [|done].
      unfold LanguageFilter.buttons, LanguageFilter.languages.
      cbn [fmap list_fmap]. destruct (pp_language post); cbn; set_solver.
Qed.

Lemma language_filter_states_witness :
  ("jp"%string ∈ ["all"; "en"; "jp"; "kr"; "es"]%string
   ∧ length (filter (λ b, LanguageFilter.isSelected b = true)
               (LanguageFilter.buttons "jp")) = 1)
  ∧ Sample.note "a" "2026-02-01" jp
      ∈ (PolyglotPage.filteredPosts "jp" Sample.notes).1.
Proof.
  pose proof (language_filter_states "jp" Sample.notes) as (T1&_&T3&T4).
  split.
  - exact (T1 (T3 jp)).
  - refine (proj2 (proj1 (T4 (Sample.note "a" "2026-02-01" jp) _)) _);
      [left|by right].
Defined.

Lemma postsIn_zero k posts :
  postsIn k posts = 0 ↔ ∀ post, post ∈ posts → code (pp_language post) ≠ k.
Proof.
  induction posts as [|post posts IH]; [by split; [intros _ ? ?%elem_of_nil|]|].
  rewrite postsIn_cons. destruct (decide (code (pp_language post) = k)) as [Hk|Hk].
  - split; [lia|]. intros Hall. destruct (Hall post); [left|done].
  - cbn [Nat.add]. rewrite IH. split.
    + intros Hall p [->|Hp]%elem_of_cons; [done|by apply Hall].
    + intros Hall p Hp. apply Hall. by right.
Qed.

Lemma filteredPosts_length s (posts : list PolyglotPostDoc) :
  length (PolyglotPage.filteredPosts s posts).1
  = if decide (s = "all"%string) then length posts else postsIn s posts.
Proof.
  unfold PolyglotPage.filteredPosts. by destruct (decide (s = "all"%string)).
Qed.

(** What the polyglot page computes, with the sorted array named. *)
Lemma PolyglotView_render getTime s posts :
  let sorted := sortElements (byDateDesc getTime pp_date) posts in
  let filtered := (PolyglotPage.filteredPosts s sorted).1 in
  (PolyglotView.render getTime s posts).1
  = {| PolyglotView.showing := length filtered;
       PolyglotView.noun :=
         if decide (length filtered = 1) then "post"%string else "posts"%string;
       PolyglotView.area :=
         if decide (0 < length filtered)
         then Grid (Array_mapi PolyglotView.card filtered).1
         else if decide (length sorted = 0) then NoPostsYet
              else NoPostsInThisLanguage;
       PolyglotView.stats :=
         if decide (0 < length sorted)
         then Some {| PolyglotView.japanese :=
                        PolyglotPage.shownCount
                          (PolyglotPage.languageCounts sorted).1 "jp";
                      PolyglotView.korean :=
                        PolyglotPage.shownCount
                          (PolyglotPage.languageCounts sorted).1 "kr";
                      PolyglotView.english :=
                        PolyglotPage.shownCount
                          (PolyglotPage.languageCounts sorted).1 "en";
                      PolyglotView.spanish :=
                        PolyglotPage.shownCount
                          (PolyglotPage.languageCounts sorted).1 "es" |}
         else None |}.
Proof. done. Qed.

(** X13.  The polyglot page, for every collection and selection.  The
    number it announces is the number of posts in the selected language
    (of all posts under [all]), with "post" for exactly one.  It shows a
    grid with that many cards when the number is not zero; "No posts yet"
    exactly when the collection is empty; and "No posts in this language"
    exactly when the collection has posts but none in the selected
    language, which cannot happen under [all].  The statistics are there
    exactly when the collection is not empty, and each tile is the number
    of posts in its language. *)
Theorem polyglot_page_view (getTime : string → option Z)
    (selectedLanguage : string) (posts : list PolyglotPostDoc) :
  let view := (PolyglotView.render getTime selectedLanguage posts).1 in
  PolyglotView.showing view
  = (if decide (selectedLanguage = "all"%string) then length posts
     else postsIn selectedLanguage posts)
  ∧ (PolyglotView.noun view = "post"%string ↔ PolyglotView.showing view = 1)
  ∧ (∀ cards, PolyglotView.area view = Grid cards →
       length cards = PolyglotView.showing view
       ∧ 0 < PolyglotView.showing view)
  ∧ (PolyglotView.area view = NoPostsYet ↔ posts = [])
  ∧ (PolyglotView.area view = NoPostsInThisLanguage
     ↔ posts ≠ [] ∧ selectedLanguage ≠ "all"%string
       ∧ ∀ post, post ∈ posts → code (pp_language post) ≠ selectedLanguage)
  ∧ (PolyglotView.stats view = None ↔ posts = [])
  ∧ (∀ tiles, PolyglotView.stats view = Some tiles →
       PolyglotView.japanese tiles = Z.of_nat (postsIn "jp" posts)
       ∧ PolyglotView.korean tiles = Z.of_nat (postsIn "kr" posts)
       ∧ PolyglotView.english tiles = Z.of_nat (postsIn "en" posts)
       ∧ PolyglotView.spanish tiles = Z.of_nat (postsIn "es" posts)).
Proof.
  cbv zeta. rewrite PolyglotView_render. cbv zeta.
  cbn [PolyglotView.showing PolyglotView.noun PolyglotView.area
       PolyglotView.stats].
  set (sorted := sortElements (byDateDesc getTime pp_date) posts).
  assert (Hperm : sorted ≡ₚ posts) by apply sortElements_perm.
  assert (Hlen : length sorted = length posts) by by rewrite Hperm.
  assert (Hshow : length (PolyglotPage.filteredPosts selectedLanguage sorted).1
                  = if decide (selectedLanguage = "all"%string)
                    then length posts else postsIn selectedLanguage posts).
  { rewrite filteredPosts_length, Hlen.
    destruct (decide (selectedLanguage = "all"%string)); [done|].
    by apply postsIn_perm. }
  assert (Hempty : length posts = 0 ↔ posts = [])
    by (destruct posts; cbn; split; (done || lia)).
  set (n := length (PolyglotPage.filteredPosts selectedLanguage sorted).1) in *.
  rewrite Hlen. split_and!.
  - done.
  - destruct (decide (n = 1)) as [H1|H1]; split; intros H; done.
  - intros cards. destruct (decide (0 < n));
      [|destruct (decide (length posts = 0)); intros H; discriminate H].
    intros [= <-]. unfold Array_mapi. cbn [fst]. by rewrite length_imap.
  - rewrite <-Hempty.
    destruct (decide (0 < n)) as [Hn|Hn], (decide (length posts = 0)) as [Hz|Hz];
      split; intros H; try done.
    exfalso. rewrite Hshow, Hz in Hn.
    destruct (decide (selectedLanguage = "all"%string)); [lia|].
    destruct posts; [|done]. cbn in Hn. lia.
  - rewrite <-postsIn_zero, <-Hempty.
    destruct (decide (0 < n)) as [Hn|Hn], (decide (length posts = 0)) as [Hz|Hz];
      rewrite Hshow in Hn;
      destruct (decide (selectedLanguage = "all"%string)) as [->|Hne];
      split; intros H; try done; try lia; try tauto.
    split_and!; [done|done|lia].
  - rewrite <-Hempty.
    destruct (decide (0 < length posts)); split; intros H; try done; lia.
  - intros tiles. destruct (decide (0 < length posts)); [|done]. intros [= <-].
    cbn [PolyglotView.japanese PolyglotView.korean PolyglotView.english
         PolyglotView.spanish].
    split_and!;
      (etrans; [apply (shownCount_postsIn sorted)
               |by rewrite (postsIn_perm _ sorted posts)]).
Qed.

Lemma allTags_elem (posts : list WritingPostDoc) tag :
  tag ∈ (WritingPage.allTags posts).1 ↔ ∃ p, p ∈ posts ∧ tag ∈ wp_tags p.
Proof.
  unfold WritingPage.allTags, Array_flatMap, Array_from_Set. cbn [fst].
  rewrite fromSet_fold_elem, elem_of_nil, elem_of_concat. split.
  - intros [[]|(tags&Htags&Htag)].
    apply list_elem_of_fmap in Htags as (p&->&Hp). by exists p.
  - intros (p&Hp&Htag). right. exists (wp_tags p). split; [|done].
    apply list_elem_of_fmap. by exists p.
Qed.

(** ** The writing page *)

Lemma Array_get_first {A} (x : A) l : Array_get (x :: l) 0 = Some x.
Proof. done. Qed.

Lemma Array_get_last {A} (l : list A) :
  l ≠ [] → Array_get l (Z.of_nat (length l) - 1) = last l.
Proof.
  intros Hne. unfold Array_get. destruct l as [|x l]; [done|].
  cbn [length]. rewrite last_lookup.
  destruct (Z.ltb_spec (Z.of_nat (S (length l)) - 1) 0) as [Hlt|_]; [lia|].
  f_equal. cbn [length Init.Nat.pred]. lia.
Qed.

Lemma notOlder_refl {A} getTime (date : A → string) a :
  validDate getTime date a → notOlder getTime date a a.
Proof. intros [t Ht]. unfold notOlder. rewrite Ht. lia. Qed.

(** What the writing page computes, with the sorted array named. *)
Lemma WritingView_render getTime posts :
  let sorted := sortElements (byDateDesc getTime wp_date) posts in
  let allTags := (WritingPage.allTags sorted).1 in
  let tagsBar := if decide (0 < length allTags) then Some allTags else None in
  let area :=
    if decide (0 < length sorted)
    then Grid (Array_mapi WritingView.card sorted).1 else NoPostsYet in
  (WritingView.render getTime posts).1
  = if decide (0 < length sorted)
    then match WritingView.statsOf sorted allTags with
         | Returns stats =>
             Returns {| WritingView.tagsBar := tagsBar;
                        WritingView.area := area;
                        WritingView.stats := Some stats |}
         | TypeError => TypeError
         end
    else Returns {| WritingView.tagsBar := tagsBar;
                    WritingView.area := area;
                    WritingView.stats := None |}.
Proof. done. Qed.

(** The statistics of a sorted array that is not empty. *)
Lemma statsOf_nonempty (sorted : list WritingPostDoc) allTags :
  sorted ≠ [] →
  ∃ first final rest,
    sorted = first :: rest
    ∧ last sorted = Some final
    ∧ WritingView.statsOf sorted allTags
      = Returns {| WritingView.totalPosts := length sorted;
                   WritingView.topics := length allTags;
                   WritingView.latestYearOf := wp_date first;
                   WritingView.startedOf := wp_date final |}.
Proof.
  intros Hne. destruct sorted as [|first rest] eqn:E; [done|].
  destruct (last (first :: rest)) as [final|] eqn:El.
  - exists first, final, rest. split_and!; [done|done|].
    unfold WritingView.statsOf.
    rewrite Array_get_last, El by done. by rewrite Array_get_first.
  - by apply last_None in El.
Qed.

(** X14.  The writing page renders for every collection: its statistics
    read the first and the last post of the sorted array only when the
    array is not empty, so no property of [undefined] is read.  The
    statistics are there exactly when there is a post, and the grid too
    (the placeholder otherwise), with a card for each post.  The total is
    the number of posts, the topics the number of distinct tags, the two
    years are taken from a post of the collection each, and with valid
    dates the first is dated no earlier and the second no later than any
    post.  The row of tags is left out exactly when no post has a tag. *)
Theorem writing_page_view (getTime : string → option Z)
    (posts : list WritingPostDoc) :
  ∃ view,
    (WritingView.render getTime posts).1 = Returns view
    ∧ (WritingView.tagsBar view = None ↔ ∀ p, p ∈ posts → wp_tags p = [])
    ∧ (WritingView.area view = NoPostsYet ↔ posts = [])
    ∧ (∀ cards, WritingView.area view = Grid cards → length cards = length posts)
    ∧ (WritingView.stats view = None ↔ posts = [])
    ∧ (∀ stats, WritingView.stats view = Some stats →
         WritingView.totalPosts stats = length posts
         ∧ WritingView.topics stats
           = length (WritingPage.allTags
                       (WritingPage.sortedPosts getTime posts).1).1
         ∧ ∃ first final,
             first ∈ posts ∧ final ∈ posts
             ∧ WritingView.latestYearOf stats = wp_date first
             ∧ WritingView.startedOf stats = wp_date final
             ∧ (Forall (validDate getTime wp_date) posts →
                ∀ p, p ∈ posts →
                  notOlder getTime wp_date first p
                  ∧ notOlder getTime wp_date p final)).
Proof.
  rewrite WritingView_render. cbv zeta.
  set (sorted := sortElements (byDateDesc getTime wp_date) posts).
  assert (Hperm : sorted ≡ₚ posts) by apply sortElements_perm.
  assert (Hlen : length sorted = length posts) by by rewrite Hperm.
  assert (Hempty : length posts = 0 ↔ posts = [])
    by (destruct posts; cbn; split; (done || lia)).
  assert (Htags : (if decide (0 < length (WritingPage.allTags sorted).1)
                   then Some (WritingPage.allTags sorted).1 else None) = None
                  ↔ ∀ p, p ∈ posts → wp_tags p = []).
  { pose proof (allTags_elem sorted) as Helem.
    destruct (WritingPage.allTags sorted).1 as [|tag tags] eqn:Et; cbn [length].
    - rewrite decide_False by lia. split; [intros _|done].
      intros p Hp. destruct (wp_tags p) as [|t ts] eqn:Ep; [done|].
      exfalso. apply (not_elem_of_nil t), Helem. exists p.
      rewrite Hperm, Ep. split; [done|left].
    - rewrite decide_True by lia. split; [done|]. intros Hall. exfalso.
      destruct (proj1 (Helem tag)) as (p&Hp&Htag); [left|].
      rewrite Hperm in Hp. rewrite (Hall p Hp) in Htag.
      by apply elem_of_nil in Htag. }
  destruct (decide (0 < length sorted)) as [Hpos|Hzero].
  - destruct (statsOf_nonempty sorted (WritingPage.allTags sorted).1)
      as (first&final&rest&Hsorted&Hlast&->).
    { intros E. rewrite E in Hpos. cbn in Hpos. lia. }
    eexists. split; [done|].
    cbn [WritingView.tagsBar WritingView.area WritingView.stats].
    split_and!.
    + done.
    + rewrite <-Hempty. split; [done|lia].
    + intros cards [= <-]. unfold Array_mapi. cbn [fst].
      by rewrite length_imap.
    + rewrite <-Hempty. split; [done|lia].
    + intros stats [= <-].
      cbn [WritingView.totalPosts WritingView.topics WritingView.latestYearOf
           WritingView.startedOf].
      split_and!; [done|done|]. exists first, final.
      assert (Hfirst : first ∈ sorted) by (rewrite Hsorted; left).
      assert (Hfinal : final ∈ sorted).
      { apply last_Some in Hlast as [init ->]. apply elem_of_app. right. left. }
      split_and!; [by rewrite <-Hperm|by rewrite <-Hperm|done|done|].
      intros Hvalid p Hp. rewrite <-Hperm in Hp.
      pose proof (chronological_descending getTime wp_date posts Hvalid) as Hs.
      fold sorted in Hs.
      assert (Hvp : validDate getTime wp_date p).
      { rewrite Forall_forall in Hvalid. apply Hvalid. by rewrite <-Hperm. }
      split.
      * rewrite Hsorted in Hs, Hp. apply StronglySorted_inv in Hs as [_ Hs].
        apply elem_of_cons in Hp as [->|Hp]; [by apply notOlder_refl|].
        rewrite Forall_forall in Hs. by apply Hs.
      * apply last_Some in Hlast as [init Hinit]. rewrite Hinit in Hs, Hp.
        apply StronglySorted_app in Hs as (Hs&_&_).
        apply elem_of_app in Hp as [Hp|Hp%list_elem_of_singleton].
        -- apply Hs; [done|left].
        -- subst p. by apply notOlder_refl.
  - eexists. split; [done|].
    cbn [WritingView.tagsBar WritingView.area WritingView.stats].
    assert (posts = []) as -> by (apply Hempty; lia).
    split_and!; try done.
Qed.

Lemma writing_page_view_witness :
  ∃ first final,
    first ∈ [Sample.older; Sample.newer]
    ∧ final ∈ [Sample.older; Sample.newer]
    ∧ ∀ p, p ∈ [Sample.older; Sample.newer] →
        notOlder Sample.getTime wp_date first p
        ∧ notOlder Sample.getTime wp_date p final.
Proof.
  destruct (writing_page_view Sample.getTime [Sample.older; Sample.newer])
    as (view&_&_&_&_&Hnone&Hstats).
  destruct (WritingView.stats view) as [stats|] eqn:E.
  - destruct (Hstats stats eq_refl) as (_&_&first&final&Hf&Hl&_&_&Hnew).
    exists first, final. split_and!; [done|done|]. apply Hnew.
    repeat constructor; by eexists.
  - discriminate (proj1 Hnone eq_refl).
Defined.

(** ** The links of a project card *)

(** X15.  A project card never renders a link without a target: every
    link it shows has an address that is not empty.  The GitHub and the
    live-demo buttons point at the addresses given, as given, and the two
    related-post links at ["/writing/"] followed by the slug given.  A
    card has four links at most. *)
Theorem card_links_have_targets (props : ProjectCard.Props)
    (l : ProjectCard.LinkElement) :
  (l ∈ ProjectCard.links props →
   ProjectCard.href l ≠ ""%string
   ∧ match ProjectCard.place l with
     | ProjectCard.GithubButton =>
         ProjectCard.github props = Some (ProjectCard.href l)
     | ProjectCard.LiveDemoButton =>
         ProjectCard.liveUrl props = Some (ProjectCard.href l)
     | ProjectCard.RelatedPostButton | ProjectCard.RelatedPostLine =>
         ∃ slug, ProjectCard.relatedPost props = Some slug
                 ∧ ProjectCard.href l = "/writing/" +:+ slug
     end)
  ∧ length (ProjectCard.links props) ≤ 4.
Proof.
  split.
  - unfold ProjectCard.links. rewrite !elem_of_app, !elem_of_whenTruthy.
    intros [(s&Hs&Hne&->)|[(s&Hs&Hne&->)|[(s&Hs&Hne&->)|(s&Hs&Hne&->)]]];
      cbn [ProjectCard.href ProjectCard.place];
      (split; [done|]); try done; by exists s.
  - unfold ProjectCard.links, ProjectCard.whenTruthy. rewrite !length_app.
    destruct (ProjectCard.github props) as [g|],
             (ProjectCard.liveUrl props) as [u|],
             (ProjectCard.relatedPost props) as [r|];
      repeat case_decide; cbn [length]; lia.
Qed.

Lemma card_links_have_targets_witness :
  ProjectCard.href
    (ProjectCard.mkLink ProjectCard.RelatedPostLine "/writing/ghost")
  ≠ ""%string
  ∧ ∃ slug,
      ProjectCard.relatedPost (ProjectCard.propsOf 1 Sample.B) = Some slug
      ∧ "/writing/ghost"%string = "/writing/" +:+ slug.
Proof.
  refine (proj1 (card_links_have_targets (ProjectCard.propsOf 1 Sample.B)
                   (ProjectCard.mkLink ProjectCard.RelatedPostLine
                      "/writing/ghost")) _).
  right. left.
Defined.

(** ** Ties and the one arrangement *)

(** X16.  On the projects page, projects with the same [order] keep the
    order they had in the collection.  On the writing and polyglot pages,
    when the dates of the collection are valid, posts whose dates denote
    the same instant keep theirs, also when the dates are written
    differently. *)
Theorem ties_keep_input_order (getTime : string → option Z)
    (projects : list ProjectDoc) (writing : list WritingPostDoc)
    (polyglot : list PolyglotPostDoc) :
  (∀ o, filter (λ p, pj_order p = Some o) (ProjectsPage.sortedProjects projects).1
        = filter (λ p, pj_order p = Some o) projects)
  ∧ (Forall (validDate getTime wp_date) writing →
     ∀ t, filter (λ p, getTime (wp_date p) = Some t)
            (WritingPage.sortedPosts getTime writing).1
          = filter (λ p, getTime (wp_date p) = Some t) writing)
  ∧ (Forall (validDate getTime pp_date) polyglot →
     ∀ t, filter (λ p, getTime (pp_date p) = Some t)
            (PolyglotPage.sortedPosts getTime polyglot).1
          = filter (λ p, getTime (pp_date p) = Some t) polyglot).
Proof.
  split_and!.
  - apply byOrder_stable_equal.
  - intros Hvalid t. by apply chronological_stable_time.
  - intros Hvalid t. by apply chronological_stable_time.
Qed.

Lemma ties_keep_input_order_witness :
  filter (λ p, Sample.getTime (wp_date p) = Some 1769904000000%Z)
    (WritingPage.sortedPosts Sample.getTime
       [Sample.older; Sample.newer; Sample.post "third" "2026-02-01" []]).1
  = [Sample.newer; Sample.post "third" "2026-02-01" []]
  ∧ filter (λ p, Sample.getTime (pp_date p) = Some 1768435200000%Z)
      (PolyglotPage.sortedPosts Sample.getTime Sample.notes).1
    = [Sample.note "c" "2026-01-15" jp; Sample.note "d" "2026-01-15" es].
Proof.
  split.
  - refine (proj1 (proj2 (ties_keep_input_order Sample.getTime []
                            [Sample.older; Sample.newer;
                             Sample.post "third" "2026-02-01" []] []))
              _ 1769904000000%Z).
    repeat constructor; eexists; reflexivity.
  - refine (proj2 (proj2 (ties_keep_input_order Sample.getTime [] []
                            Sample.notes)) _ 1768435200000%Z).
    repeat constructor; eexists; reflexivity.
Defined.

(** X17.  The arrangement a page shows is the only one that is in order
    and stable.  A rearrangement of the projects in which no project has
    to follow a later one, and in which tied projects are in the order of
    the collection, is the list of the projects page; and with valid
    dates the same holds of the posts of the writing page.  So the list
    does not depend on how the engine sorts. *)
Theorem sorted_arrangement_unique (getTime : string → option Z)
    (projects arranged : list ProjectDoc)
    (writing listed : list WritingPostDoc) :
  (arranged ≡ₚ projects →
   StronglySorted (comesBefore byOrder) arranged →
   (∀ x, filter (tied byOrder x) arranged = filter (tied byOrder x) projects) →
   arranged = (ProjectsPage.sortedProjects projects).1)
  ∧ (Forall (validDate getTime wp_date) writing →
     listed ≡ₚ writing →
     StronglySorted (comesBefore (byDateDesc getTime wp_date)) listed →
     (∀ x, validDate getTime wp_date x →
           filter (tied (byDateDesc getTime wp_date) x) listed
           = filter (tied (byDateDesc getTime wp_date) x) writing) →
     listed = (WritingPage.sortedPosts getTime writing).1).
Proof.
  split.
  - intros Hperm Hsorted Hstable.
    apply (sortElements_unique byOrder (λ _, True)); auto.
    + apply byOrder_before_refl.
    + intros x y _ _. apply byOrder_before_total.
    + intros x y z _ _ _. apply byOrder_before_trans.
    + by apply Forall_true.
  - apply sortElements_unique.
    + apply byDate_before_refl.
    + apply byDate_before_total.
    + apply byDate_before_trans.
Qed.

Lemma sorted_arrangement_unique_witness :
  [Sample.C; Sample.A; Sample.B]
  = (ProjectsPage.sortedProjects [Sample.C; Sample.A; Sample.B]).1
  ∧ [Sample.newer; Sample.older]
    = (WritingPage.sortedPosts Sample.getTime [Sample.newer; Sample.older]).1.
Proof.
  pose proof (sorted_arrangement_unique Sample.getTime
                [Sample.C; Sample.A; Sample.B] [Sample.C; Sample.A; Sample.B]
                [Sample.newer; Sample.older] [Sample.newer; Sample.older])
    as [Tp Tw].
  split.
  - apply Tp; [done| |done].
    repeat (constructor; [|repeat constructor; by vm_compute]). constructor.
  - apply Tw; [repeat constructor; by eexists|done| |done].
    repeat (constructor; [|repeat constructor; by vm_compute]). constructor.
Defined.

(** ** Instances on the sample content *)

Lemma static_params_render_witness :
  ∃ post,
    (WritingPostPage Sample.getTime "second" [Sample.older; Sample.newer]).1
    = Rendered post.
Proof.
  refine (proj1 (proj1 (proj2 (static_params_render Sample.getTime "second"
                                 [Sample.older; Sample.newer] [])) _) _).
  - repeat constructor; eexists; reflexivity.
  - right. left.
Defined.

Lemma polyglot_page_view_witness :
  length (Array_mapi PolyglotView.card
            (PolyglotPage.filteredPosts "jp"
               (PolyglotPage.sortedPosts Sample.getTime Sample.notes).1).1).1
  = PolyglotView.showing (PolyglotView.render Sample.getTime "jp" Sample.notes).1
  ∧ 0 < PolyglotView.showing
          (PolyglotView.render Sample.getTime "jp" Sample.notes).1.
Proof.
  exact (proj1 (proj2 (proj2
           (polyglot_page_view Sample.getTime "jp" Sample.notes))) _ eq_refl).
Defined.
